(** * Multinomial logistic regression for sea-ice age: the notebook pipeline

    A shallow embedding of the third notebook of [Labs/HelmHippy.ipynb]
    (covariate scaling, block design matrix, posterior work graph,
    posterior-predictive aggregation, summary statistics).

    Numbers: the notebook computes on float64 arrays.  In the scaling
    step, the design matrix, the work graph and the summary statistics,
    finite float64 values are idealised as real numbers ([R]), and the
    non-finite results of a division by zero ([nan], [inf], [-inf]) are
    kept apart in the type [npfloat].  The aggregation loop, whose
    exponential overflows, is modelled in binary64 arithmetic: rounding
    to nearest, overflow to [inf], [inf/inf = nan].
    Arrays are lists, matrices are lists of rows. *)

From Stdlib Require Import Reals Lra Lia.
From stdpp Require Import base list sorting strings gmap.

Abbreviation vec := (list R).
Abbreviation matrix := (list (list R)).

(** ** Block design matrix ("stamping" loop)

<<
V = np.zeros((numClasses*numObs, numClasses*termsPerClass))
for c in range(numClasses):
    V[c::numClasses, c*termsPerClass:(c+1)*termsPerClass] = partialV
>> *)

Section block_design.
Context {A : Type} (zero : A).
Variables (numClasses termsPerClass : nat) (partialV : list (list A)).

(** [np.zeros((rows, cols))] *)
Definition np_zeros (rows cols : nat) : list (list A) :=
  replicate rows (replicate cols zero).

(** [V[c::numClasses, c*T:(c+1)*T] = partialV]: the row slice [c::numClasses]
    selects the rows [c], [c+numClasses], [c+2*numClasses], ...; the [r]-th
    selected row receives row [r] of [partialV] in the columns starting at
    [c*T]. *)
Definition stamp (V : list (list A)) (c : nat) : list (list A) :=
  imap (λ i row,
          if decide (c ≤ i ∧ (i - c) `mod` numClasses = 0)%nat then
            match partialV !! ((i - c) `div` numClasses)%nat with
            | Some src => list_inserts (c * termsPerClass) src row
            | None => row
            end
          else row) V.

Definition block_design_upto (k : nat) : list (list A) :=
  foldl stamp
    (np_zeros (numClasses * length partialV) (numClasses * termsPerClass))
    (seq 0 k).

Definition block_design : list (list A) := block_design_upto numClasses.

(** Entry [(i, j)] of a matrix, when it exists. *)
Definition entry (V : list (list A)) (i j : nat) : option A :=
  V !! i ≫= (.!! j).
End block_design.

(** ** Python exceptions as an error monad *)

Inductive pyexn := ValueError | IndexError | RuntimeError.

Inductive pyresult (A : Type) :=
| Ok (a : A)
| Raise (e : pyexn).
Arguments Ok {A} a.
Arguments Raise {A} e.

#[global] Instance pyresult_ret : MRet pyresult := λ A a, Ok a.
#[global] Instance pyresult_bind : MBind pyresult := λ A B f x,
  match x with Ok a => f a | Raise e => Raise e end.

Definition raises {A} (x : pyresult A) : Prop :=
  match x with Ok _ => False | Raise _ => True end.

(** ** float64 values *)

Inductive npfloat := Fin (r : R) | PInf | NInf | NaN.

Definition is_finite (x : npfloat) : Prop :=
  match x with Fin _ => True | _ => False end.


(** [x <= y] on float64: false as soon as one side is [nan]. *)
Definition np_le (x y : npfloat) : Prop :=
  match x, y with
  | Fin a, Fin b => (a <= b)%R
  | NaN, _ | _, NaN => False
  | NInf, _ => True
  | _, PInf => True
  | _, _ => False
  end.

Section float_ops.
Local Open Scope R_scope.

(** [a / b] on two finite floats, numpy semantics: no exception, a zero
    divisor gives [inf], [-inf] or [nan]. *)
Definition np_div (a b : R) : npfloat :=
  if Req_dec_T b 0 then
    if Rlt_dec 0 a then PInf else if Rlt_dec a 0 then NInf else NaN
  else Fin (a / b).

Definition np_cos (x : npfloat) : npfloat :=
  match x with Fin r => Fin (cos r) | _ => NaN end.

(** [c * x] for a finite constant [c]. *)
Definition np_scale (c : R) (x : npfloat) : npfloat :=
  match x with
  | Fin r => Fin (c * r)
  | PInf => if Rlt_dec 0 c then PInf else if Rlt_dec c 0 then NInf else NaN
  | NInf => if Rlt_dec 0 c then NInf else if Rlt_dec c 0 then PInf else NaN
  | NaN => NaN
  end.

(** [x + c] for a finite constant [c]. *)
Definition np_shift (x : npfloat) (c : R) : npfloat :=
  match x with Fin r => Fin (r + c) | other => other end.

(** [np.min], [np.max]: [ValueError] on an empty array. *)
Definition np_min (a : vec) : pyresult R :=
  match a with [] => Raise ValueError | x :: a' => Ok (foldl Rmin x a') end.
Definition np_max (a : vec) : pyresult R :=
  match a with [] => Raise ValueError | x :: a' => Ok (foldl Rmax x a') end.

Definition sum_list (l : vec) : R := foldr Rplus 0 l.

(** [np.dot] of two vectors and of a matrix with a vector. *)
Definition dot (a b : vec) : R := sum_list (zip_with Rmult a b).
Definition matvec (V : matrix) (x : vec) : vec := (λ row, dot row x) <$> V.
End float_ops.

(** ** binary64 arithmetic

    The values numpy computes with are IEEE 754 binary64 numbers: 53
    significant bits, the last place of a number at least [2^-1074],
    round to nearest with ties to even, and an infinity when the rounded
    result exceeds the largest finite number.  The model has one zero
    ([-0.0] is not told apart from [0.0]). *)

Section binary64.
Local Open Scope R_scope.

(** [2^e] for an integer [e]. *)
Definition pow2 (e : Z) : R := powerRZ 2 e.

(** The exponent of the last place of [x]: 52 binary places below the
    leading bit of [x], and never below -1074 (subnormal numbers). *)
Definition ulp_exp (x : R) : Z :=
  Z.max (-1074) (Zfloor (ln (Rabs x) / ln 2) - 52).

(** The integer nearest to [y], ties to even. *)
Definition round_half_even (y : R) : Z :=
  let f := Zfloor y in
  if Rlt_dec (y - IZR f) (1 / 2) then f
  else if Rlt_dec (1 / 2) (y - IZR f) then (f + 1)%Z
  else if Z.even f then f else (f + 1)%Z.

(** [x] rounded to 53 significant bits (exponent not bounded above). *)
Definition rnd (x : R) : R :=
  IZR (round_half_even (x * pow2 (- ulp_exp x))) * pow2 (ulp_exp x).

(** The largest finite float64, [(2^53 - 1) * 2^971]. *)
Definition max_float : R := (2 ^ 53 - 1) * 2 ^ 971.

(** The float64 result of an operation whose exact value is [x]. *)
Definition fl (x : R) : npfloat :=
  if Rlt_dec max_float (rnd x) then PInf
  else if Rlt_dec (rnd x) (- max_float) then NInf
  else Fin (rnd x).

(** [a + b] *)
Definition f64_add (a b : npfloat) : npfloat :=
  match a with
  | Fin x => match b with Fin y => fl (x + y) | other => other end
  | PInf => match b with NInf | NaN => NaN | _ => PInf end
  | NInf => match b with PInf | NaN => NaN | _ => NInf end
  | NaN => NaN
  end.

(** [a / b], numpy semantics: no exception, [x/0] is an infinity or
    [nan], [inf/inf] is [nan], [x/inf] is zero. *)
Definition f64_div (a b : npfloat) : npfloat :=
  match a with
  | Fin x =>
      match b with
      | Fin y =>
          if Req_dec_T y 0 then
            if Rlt_dec 0 x then PInf else if Rlt_dec x 0 then NInf else NaN
          else fl (x / y)
      | PInf | NInf => Fin 0
      | NaN => NaN
      end
  | PInf =>
      match b with Fin y => if Rlt_dec y 0 then NInf else PInf | _ => NaN end
  | NInf =>
      match b with Fin y => if Rlt_dec y 0 then PInf else NInf | _ => NaN end
  | NaN => NaN
  end.

(** [np.exp(x)], taken as the correctly rounded exponential: [inf] above
    about 709.78, zero below about -745.13. *)
Definition np_exp (x : R) : npfloat := fl (exp x).


(** A non-negative number or [inf]: what [np.exp] returns. *)
Definition nonneg_or_inf (x : npfloat) : Prop :=
  match x with Fin r => 0 <= r | PInf => True | _ => False end.

(** Half the distance between 1 and the next float64, and half the
    smallest positive float64: the bounds of the rounding error. *)
Definition f64_eps : R := pow2 (-53).
Definition f64_eta : R := pow2 (-1075).
End binary64.

(** The operations of the aggregation loop, in float64 as numpy computes
    them, and on exact reals (the values of the examples are given in
    exact arithmetic). *)
Class Arith (F : Type) := {
  ar_zero : F;
  ar_exp : R → F;
  ar_add : F → F → F;
  ar_div : F → F → F
}.

#[global] Instance exact_arith : Arith R :=
  {| ar_zero := 0%R; ar_exp := exp; ar_add := Rplus; ar_div := Rdiv |}.

#[global] Instance binary64_arith : Arith npfloat :=
  {| ar_zero := Fin 0; ar_exp := np_exp; ar_add := f64_add; ar_div := f64_div |}.

(** ** Covariate scaling

<<
minTime, maxTime = np.min(timeRaw), np.max(timeRaw)   # same for lat, lon
time = (timeRaw-minTime)/(maxTime-minTime)
lat = (latRaw-minLat)/(maxLat-minLat)
lon = 0.5*np.cos( 2.0*np.pi*(lonRaw-minLon)/(maxLon - minLon) )+0.5
>> *)

Record extrema := {
  minTime : R; maxTime : R;
  minLat : R; maxLat : R;
  minLon : R; maxLon : R
}.

Record covariates := {
  time : list npfloat;
  lat : list npfloat;
  lon : list npfloat
}.

Section scaling.
Local Open Scope R_scope.

(** [(raw-lo)/(hi-lo)] *)
Definition scale_affine (lo hi raw : R) : npfloat :=
  np_div (raw - lo) (hi - lo).

(** [0.5*np.cos(2.0*np.pi*(raw-lo)/(hi-lo))+0.5] *)
Definition scale_periodic (lo hi raw : R) : npfloat :=
  np_shift (np_scale 0.5 (np_cos (np_div (2 * PI * (raw - lo)) (hi - lo)))) 0.5.

Definition read_extrema (timeRaw latRaw lonRaw : vec) : pyresult extrema :=
  t0 ← np_min timeRaw; t1 ← np_max timeRaw;
  a0 ← np_min latRaw; a1 ← np_max latRaw;
  o0 ← np_min lonRaw; o1 ← np_max lonRaw;
  Ok {| minTime := t0; maxTime := t1; minLat := a0; maxLat := a1;
        minLon := o0; maxLon := o1 |}.

Definition scale_covariates (e : extrema) (timeRaw latRaw lonRaw : vec) : covariates :=
  {| time := scale_affine (minTime e) (maxTime e) <$> timeRaw;
     lat := scale_affine (minLat e) (maxLat e) <$> latRaw;
     lon := scale_periodic (minLon e) (maxLon e) <$> lonRaw |}.

(** The training cell: extrema of the raw data, then the scaled data. *)
Definition scale_training (timeRaw latRaw lonRaw : vec) : pyresult (extrema * covariates) :=
  e ← read_extrema timeRaw latRaw lonRaw;
  Ok (e, scale_covariates e timeRaw latRaw lonRaw).



End scaling.

(** ** Densities and model pieces of the modelling library

    The notebook builds the posterior from pieces of the external library
    (MUQ): [mm.IdentityOperator], [mm.DensityProduct],
    [mm.Gaussian(..).AsDensity()], [mm.DenseLinearOperator] and
    [mm.MultiLogisticLikelihood].  Every piece has one output. *)

Section densities.
Local Open Scope R_scope.

(** Modelled from the spec: the log-density of the library's Gaussian
    (section 4.3: "log-density of a zero-mean Gaussian with fixed,
    typically diagonal, covariance"), for the covariance [var * I] the
    notebook passes ([100*np.eye(n)]). *)
Definition gaussian_log_density (mu : vec) (var : R) (x : vec) : R :=
  - (INR (length x) / 2) * ln (2 * PI)
  - (INR (length x) / 2) * ln var
  - / 2 * sum_list (zip_with (λ xi mi, (xi - mi) * (xi - mi) / var) x mu).

(** The scores of observation [i]: entries [i*K .. i*K+K-1] of the
    predictor vector (interleaved by class). *)
Definition class_scores (K : nat) (s : vec) (i : nat) : vec :=
  take K (drop (i * K) s).

(** Modelled from the spec: the library's multinomial-logit likelihood
    (section 4.3: "[log softmax(predictor)[observed_class]] summed over
    observations"). *)
Definition multilogit_log_density (K : nat) (data : list nat) (s : vec) : R :=
  sum_list (imap (λ i y, default 0 (class_scores K s i !! y)
                          - ln (sum_list (exp <$> class_scores K s i))) data).
End densities.

Inductive ModPiece :=
| IdentityOperator (dim : nat)
| DensityProduct (numInputs : nat)
| GaussianDensity (mu : vec) (var : R)
| DenseLinearOperator (V : matrix) (inputSize : nat)
| MultiLogisticLikelihood (numClasses : nat) (data : list nat).

Definition numInputs (p : ModPiece) : nat :=
  match p with DensityProduct n => n | _ => 1%nat end.

(** Modelled from the spec: the library's evaluation of one piece on its
    inputs (sections 4.3 and 6: identity pass-through, the matrix applied
    as a linear map, the two log-densities, and a node "combining Prior
    and Likelihood log-densities by addition"); inputs of the wrong number
    or size are an error of the library. *)
Definition Evaluate (p : ModPiece) (inputs : list vec) : pyresult vec :=
  match p, inputs with
  | IdentityOperator dim, [x] =>
      if decide (length x = dim) then Ok x else Raise RuntimeError
  | DensityProduct n, _ =>
      if decide (length inputs = n ∧ Forall (λ v, length v = 1%nat) inputs)
      then Ok [foldl (λ acc v, acc + default 0 (head v))%R 0%R inputs]
      else Raise RuntimeError
  | GaussianDensity mu var, [x] =>
      if decide (length x = length mu) then Ok [gaussian_log_density mu var x]
      else Raise RuntimeError
  | DenseLinearOperator V inputSize, [x] =>
      if decide (length x = inputSize) then Ok (matvec V x) else Raise RuntimeError
  | MultiLogisticLikelihood K data, [s] =>
      if decide (length s = K * length data)%nat
      then Ok [multilogit_log_density K data s] else Raise RuntimeError
  | _, _ => Raise RuntimeError
  end.

(** ** The work graph *)

Record WorkGraph := {
  nodes : gmap string ModPiece;
  edges : list (string * nat * string * nat)
}.

Definition empty_graph : WorkGraph := {| nodes := ∅; edges := [] |}.

Definition AddNode (g : WorkGraph) (p : ModPiece) (name : string) : WorkGraph :=
  {| nodes := <[name := p]> (nodes g); edges := edges g |}.

Definition AddEdge (g : WorkGraph) (src : string) (out : nat)
    (dst : string) (inp : nat) : WorkGraph :=
  {| nodes := nodes g; edges := edges g ++ [(src, out, dst, inp)] |}.

(** The edge that feeds input [inp] of node [dst], if there is one. *)
Fixpoint incoming (es : list (string * nat * string * nat))
    (dst : string) (inp : nat) : option (string * nat) :=
  match es with
  | [] => None
  | (src, out, dst', inp') :: es' =>
      if decide (dst' = dst ∧ inp' = inp) then Some (src, out)
      else incoming es' dst inp
  end.

(** Modelled from the spec: the library's evaluation of a graph (section
    6: pieces "composed via directed edges with declared input/output slot
    indices").  Node [name] is evaluated on the outputs of the nodes that
    feed its inputs; an input with no incoming edge reads [arg], the free
    input of the graph. *)
Fixpoint eval_node (fuel : nat) (g : WorkGraph) (arg : vec) (name : string)
    : pyresult vec :=
  match fuel with
  | O => Raise RuntimeError
  | S fuel' =>
      match nodes g !! name with
      | None => Raise RuntimeError
      | Some p =>
          inputs ← mapM (λ k,
                      match incoming (edges g) name k with
                      | Some (src, O) => eval_node fuel' g arg src
                      | Some (_, S _) => Raise RuntimeError
                      | None => Ok arg
                      end) (seq 0 (numInputs p));
          Evaluate p inputs
      end
  end.

(** [graph.CreateModPiece(name)] evaluated at [arg]. *)
Definition CreateModPiece (g : WorkGraph) (name : string) (arg : vec) : pyresult vec :=
  eval_node (size (nodes g)) g arg name.

(** The cells that build [forwardModel], [likelihood], [prior] and the
    graph; [V.shape[1]] is [numClasses*termsPerClass].

<<
forwardModel = mm.DenseLinearOperator(V)
likelihood = mm.MultiLogisticLikelihood(numClasses,ages)
prior = mm.Gaussian(np.zeros(V.shape[1]), 100*np.eye(V.shape[1])).AsDensity()

graph = mm.WorkGraph()
graph.AddNode(mm.IdentityOperator(V.shape[1]),"Parameters")
graph.AddNode(mm.DensityProduct(2), "Posterior")
graph.AddNode(prior,"Prior")
graph.AddNode(forwardModel, "ForwardModel")
graph.AddNode(likelihood, "Likelihood")
graph.AddEdge("Parameters",0, "Prior",0)
graph.AddEdge("Parameters",0,"ForwardModel",0)
graph.AddEdge("ForwardModel",0, "Likelihood",0)
graph.AddEdge("Likelihood",0, "Posterior",1)
graph.AddEdge("Prior",0, "Posterior",0)
>> *)
Section posterior.
Variables (numClasses termsPerClass : nat) (partialV : matrix) (ages : list nat).

Definition V_train : matrix := block_design 0%R numClasses termsPerClass partialV.
Definition paramDim : nat := (numClasses * termsPerClass)%nat.

Definition forwardModel : ModPiece := DenseLinearOperator V_train paramDim.
Definition likelihood : ModPiece := MultiLogisticLikelihood numClasses ages.
Definition prior : ModPiece := GaussianDensity (replicate paramDim 0%R) 100%R.

Definition graph : WorkGraph :=
  let g := empty_graph in
  let g := AddNode g (IdentityOperator paramDim) "Parameters" in
  let g := AddNode g (DensityProduct 2) "Posterior" in
  let g := AddNode g prior "Prior" in
  let g := AddNode g forwardModel "ForwardModel" in
  let g := AddNode g likelihood "Likelihood" in
  let g := AddEdge g "Parameters" 0 "Prior" 0 in
  let g := AddEdge g "Parameters" 0 "ForwardModel" 0 in
  let g := AddEdge g "ForwardModel" 0 "Likelihood" 0 in
  let g := AddEdge g "Likelihood" 0 "Posterior" 1 in
  let g := AddEdge g "Prior" 0 "Posterior" 0 in
  g.

Definition posterior (m : vec) : pyresult vec := CreateModPiece graph "Posterior" m.

Definition prior_log_density (m : vec) : R :=
  gaussian_log_density (replicate paramDim 0%R) 100%R m.
Definition likelihood_log_density (s : vec) (y : list nat) : R :=
  multilogit_log_density numClasses y s.
End posterior.

(** ** Posterior-predictive aggregation

<<
probs = np.zeros((numClasses, M, NumSamples-burnIn))
for i in range(burnIn, NumSamples):
    currProb = np.exp(np.dot(V, sampMat[:,i]).reshape(-1,numClasses).T)
    currProb /= np.sum(currProb,axis=0)
    probs[:,:,i-burnIn] = currProb
>>
    [sampMat] is given by its columns, one per chain state; [V] is the block
    design matrix of the [M] prediction points, which the notebook builds
    with [numClasses*M] rows (a [V] of another height is rejected here);
    the tensor [probs] is indexed by class, prediction point and sample.
    The scores [np.dot(V, s)] are taken exactly; the exponential, the sum
    over the classes and the division are those of the arithmetic [F] of
    the entries, float64 for the notebook. *)

Abbreviation tensor := (list (list (list R))).

Section aggregator.
Context {F : Type} `{Arith F}.
Variables (numClasses M : nat) (V : matrix) (sampMat : list vec).

(** [np.zeros((d0, d1, d2))], the last dimension being a difference of
    two Python integers: a negative dimension is a [ValueError]. *)
Definition np_zeros3 (d0 d1 : nat) (hi lo : nat) : pyresult (list (list (list F))) :=
  if decide (hi < lo) then Raise ValueError
  else Ok (replicate d0 (replicate d1 (replicate (hi - lo) ar_zero))).

(** [sampMat[:,i]] *)
Definition column (i : nat) : pyresult vec :=
  match sampMat !! i with Some s => Ok s | None => Raise IndexError end.

(** [np.dot(V, s)]: the sizes must agree. *)
Definition np_dot (s : vec) : pyresult vec :=
  if decide (Forall (λ row, length row = length s) V) then Ok (matvec V s)
  else Raise ValueError.

(** [np.exp(lin.reshape(-1,numClasses).T)]: entry [(c, p)] is
    [exp(lin[p*numClasses + c])]; the result must have the shape
    [(numClasses, M)] of the slice it is stored in. *)
Definition exp_matrix (lin : vec) : list (list F) :=
  (λ c, (λ p, ar_exp (default 0%R (lin !! (p * numClasses + c)))) <$> seq 0 M)
    <$> seq 0 numClasses.

Definition exp_scores (lin : vec) : pyresult (list (list F)) :=
  if decide (numClasses ≠ 0 ∧ length lin = numClasses * M) then Ok (exp_matrix lin)
  else Raise ValueError.

(** The sum of a column: its entries are added one after the other. *)
Definition ar_sum (l : list F) : F :=
  match l with [] => ar_zero | x :: l' => foldl ar_add x l' end.

(** [np.sum(currProb, axis=0)] *)
Definition sum_axis0 (currProb : list (list F)) : list F :=
  (λ p, ar_sum ((λ row, default ar_zero (row !! p)) <$> currProb)) <$> seq 0 M.

(** [currProb /= np.sum(currProb,axis=0)] *)
Definition normalize (currProb : list (list F)) : list (list F) :=
  (λ row, zip_with ar_div row (sum_axis0 currProb)) <$> currProb.

(** [probs[:,:,k] = currProb] *)
Definition set_slice (k : nat) (currProb : list (list F))
    (probs : list (list (list F))) : list (list (list F)) :=
  imap (λ c plane,
          imap (λ p samples,
                  match currProb !! c ≫= (.!! p) with
                  | Some x => <[k := x]> samples
                  | None => samples
                  end) plane) probs.

Definition aggregate_step (burnIn : nat) (acc : pyresult (list (list (list F))))
    (i : nat) : pyresult (list (list (list F))) :=
  probs ← acc;
  s ← column i;
  lin ← np_dot s;
  currProb ← exp_scores lin;
  Ok (set_slice (i - burnIn) (normalize currProb) probs).

Definition aggregate (NumSamples burnIn : nat) : pyresult (list (list (list F))) :=
  probs ← np_zeros3 numClasses M NumSamples burnIn;
  foldl (aggregate_step burnIn) (Ok probs) (seq burnIn (NumSamples - burnIn)).
End aggregator.

(** The slice of one sample, and the tensor of a list of slices: the
    result of the loop in closed form. *)
Definition predict_slice {F} `{Arith F} (numClasses M : nat) (V : matrix) (s : vec)
    : list (list F) :=
  normalize M (exp_matrix numClasses M (matvec V s)).

Definition cell {F} `{Arith F} (sl : list (list F)) (c p : nat) : F :=
  default ar_zero (sl !! c ≫= (.!! p)).

Definition tensor_of_slices {F} `{Arith F} (numClasses M : nat)
    (slices : list (list (list F))) (pending : nat) : list (list (list F)) :=
  (λ c, (λ p, ((λ sl, cell sl c p) <$> slices) ++ replicate pending ar_zero)
          <$> seq 0 M) <$> seq 0 numClasses.

(** [probs[c, p, k]], when it exists. *)
Definition tensor_entry {F} (probs : list (list (list F))) (c p k : nat) : option F :=
  (probs !! c ≫= (.!! p)) ≫= (.!! k).


(** ** Summary statistics over the sample axis

<<
np.percentile(probs[2,:,:],1,axis=1), np.percentile(probs[2,:,:],99,axis=1)
np.mean(probs[2,:,:],axis=1)
>> *)

#[global] Instance Rle_rel_dec : RelDecision Rle := Rle_dec.

Section summary.
Local Open Scope R_scope.

(** [np.mean] of a one-dimensional array ([nan] when it is empty). *)
Definition np_mean (a : vec) : npfloat := np_div (sum_list a) (INR (length a)).

(** Linear interpolation in the sorted array [s] at position
    [q/100*(n-1)]: weights [1-w] and [w] on the order statistics below
    and above, [w] the fractional part of the position. *)
Definition interpolate (s : vec) (q : nat) : R :=
  let pos := (q * (length s - 1))%nat in
  let below := (pos `div` 100)%nat in
  let above := (Nat.min (below + 1) (length s - 1))%nat in
  let w := INR (pos `mod` 100) / 100 in
  nth below s 0 * (1 - w) + nth above s 0 * w.

(** [np.percentile(a, q)] for an integer [q]: [ValueError] when [q] is
    above 100, [nan] on an empty array. *)
Definition np_percentile (a : vec) (q : nat) : pyresult npfloat :=
  if decide (100 < q)%nat then Raise ValueError
  else match a with
       | [] => Ok NaN
       | _ => Ok (Fin (interpolate (merge_sort Rle a) q))
       end.

End summary.

(** ** Concrete data used in the examples below *)

Section examples_data.
Local Open Scope R_scope.

(** Training data whose years span 1984..2016, as the data set of the
    notebook does. *)
Definition ex_timeRaw : vec := [1984; 2016].
Definition ex_latRaw : vec := [60; 90].
Definition ex_lonRaw : vec := [0; 360].
Definition ex_extrema : extrema :=
  {| minTime := 1984; maxTime := 2016; minLat := 60; maxLat := 90;
     minLon := 0; maxLon := 360 |}.

(** The end-to-end scenario: 2 classes, one covariate, the order-1 basis
    [[1, x]], four observations. *)
Definition scenario_x : vec := [0; 0.25; 0.75; 1].
Definition scenario_labels : list nat := [0; 1; 0; 1]%nat.
Definition basis_order1 (x : R) : vec := [1; x].
Definition scenario_partialV : matrix := basis_order1 <$> scenario_x.
Definition scenario_zeros : vec := replicate (2 * 2) 0.
Definition scenario_posterior (m : vec) : pyresult vec :=
  posterior 2 2 scenario_partialV scenario_labels m.

(** A chain of 101 states that rests at its start point (zero) for 100
    iterations and then moves once; three classes, one prediction point,
    the constant basis. *)
Definition chain_V : matrix := block_design 0 3 1 [[1]].
Definition chain_sampMat : list vec := replicate 100 [0; 0; 0] ++ [[0; 0; ln 2]].
End examples_data.

(** ** The start point of the chain

<<
startPt = np.zeros(V.shape[1])
samps = mcmc.Run(startPt)
>> *)

Definition startPt (numClasses termsPerClass : nat) : vec :=
  replicate (numClasses * termsPerClass) 0%R.

(** ** The Helmholtz notebook: point sources, grids *)

Section helmholtz.
Local Open Scope R_scope.

(** The point sources put on the right-hand side, in order:

<<
if np.minimum(s1x, s1y) > 0:
    sp1 = dl.Point(s1x,s1y)
    ps1 = dl.PointSource(Vu, sp1, 1.0)
    ps1.apply(b)
if np.minimum(s2x, s2y) > 0:
    ...
>> *)
Definition point_source (sx sy : R) : list (R * R) :=
  if Rlt_dec 0 (Rmin sx sy) then [(sx, sy)] else [].

Definition point_sources (s1x s1y s2x s2y : R) : list (R * R) :=
  point_source s1x s1y ++ point_source s2x s2y.

(** [np.linspace(start, stop, num)] (end point included): the multiples
    of the step from [start], the last entry set to [stop]; for
    [num <= 1] there is no step and the entries are [k*(stop-start)+start]. *)
Definition np_linspace (start stop : R) (num : nat) : vec :=
  if decide (1 < num)%nat then
    <[(num - 1)%nat := stop]>
      ((λ k, INR k * ((stop - start) / INR (num - 1)) + start) <$> seq 0 num)
  else (λ k, INR k * (stop - start) + start) <$> seq 0 num.

(** [np.meshgrid(x, y)]: both matrices have one row per entry of [y] and
    one column per entry of [x]. *)
Definition np_meshgrid (x y : vec) : matrix * matrix :=
  ((λ _, x) <$> y, (λ yi, replicate (length x) yi) <$> y).

(** [m.flatten()], row after row. *)
Definition flatten (m : matrix) : vec := concat m.

(** [v.reshape(rows, cols)]: [ValueError] when the size does not fit. *)
Fixpoint rows_of (rows cols : nat) (v : vec) : matrix :=
  match rows with
  | O => []
  | S rows' => take cols v :: rows_of rows' cols (drop cols v)
  end.

Definition reshape (v : vec) (rows cols : nat) : pyresult matrix :=
  if decide (length v = rows * cols)%nat then Ok (rows_of rows cols v)
  else Raise ValueError.

(** The values handed to [contourf(x, y, ...)] in [helm], for the solution
    [u] of the finite-element solver:

<<
X,Y = np.meshgrid(x,y)
xx = X.flatten()
yy = Y.flatten()
u_eval = np.array([u(x,y) for x, y in zip(xx,yy)])
... u_eval.reshape(n,n)
>> *)
Definition grid_values (u : R → R → R) (x y : vec) (n : nat) : pyresult matrix :=
  let XY := np_meshgrid x y in
  let xx := flatten XY.1 in
  let yy := flatten XY.2 in
  reshape ((λ p, u p.1 p.2) <$> zip xx yy) n n.

(** The measurement line:

<<
x_samps = np.linspace(0.1, 0.9, ns)
y_samps = 0.9*np.ones(9) # sample along a straight line
sample_locs = np.vstack([x_samps, y_samps]).T
>>
    [np.vstack] needs rows of one length; a row of the transposed matrix is
    a pair. *)
Definition np_vstack_T (a b : vec) : pyresult (list (R * R)) :=
  if decide (length a = length b) then Ok (zip a b) else Raise ValueError.

Definition sample_locs (ns : nat) : pyresult (list (R * R)) :=
  np_vstack_T (np_linspace 0.1 0.9 ns) (replicate 9 (0.9 * 1)).

(** The measurements along the line, a column vector:

<<
u_eval = []
for i in range(ns):
    u_eval.append(u( *sample_locs[i,:] ))
u_eval = np.array(u_eval).reshape(-1,1)
>> *)
Definition append_measurement (u : R → R → R) (locs : list (R * R))
    (acc : pyresult vec) (i : nat) : pyresult vec :=
  u_eval ← acc;
  match locs !! i with
  | Some p => Ok (u_eval ++ [u p.1 p.2])
  | None => Raise IndexError
  end.

Definition line_values (u : R → R → R) (ns : nat) : pyresult matrix :=
  locs ← sample_locs ns;
  u_eval ← foldl (append_measurement u locs) (Ok ([] : vec)) (seq 0 ns);
  Ok ((λ v : R, [v]) <$> (u_eval : vec)).
End helmholtz.

(** ** The hIPPYlib notebook: the noise level of the synthetic data

<<
misfit.B.mult(x[hp.STATE], misfit.d)
MAX = misfit.d.norm("linf")
noise_std_dev = rel_noise * MAX
hp.parRandom.normal_perturb(noise_std_dev, misfit.d)
misfit.noise_variance = noise_std_dev*noise_std_dev
>>
    [d] is the vector of the observations of the true state. *)

Section noise_level.
Local Open Scope R_scope.

(** [d.norm("linf")]: the largest absolute value of an entry. *)
Definition norm_linf (d : vec) : R := foldr (λ x acc, Rmax (Rabs x) acc) 0 d.

Definition noise_std_dev (rel_noise : R) (d : vec) : R := rel_noise * norm_linf d.

Definition noise_variance (rel_noise : R) (d : vec) : R :=
  noise_std_dev rel_noise d * noise_std_dev rel_noise d.
End noise_level.

(** * Properties *)

(** ** Block design matrix *)

(** Row [n*K + c] is the [n]-th row of the slice [c::K], and of no other
    slice [k::K] with [k < K]. *)
Lemma stride_select (K n c k : nat) :
  c < K → k < K →
  (k ≤ n * K + c ∧ (n * K + c - k) `mod` K = 0) ↔ c = k.
Proof.
  intros Hc Hk. split.
  - intros [Hle Hmod].
    apply Nat.Div0.mod_divides in Hmod as [q Hq].
    assert (n * K + c = K * q + k) as Heq by lia.
    destruct (Nat.lt_trichotomy n q) as [Hlt|[->|Hgt]]; [|lia|].
    + assert ((n + 1) * K ≤ q * K) by (apply Nat.mul_le_mono_r; lia). lia.
    + assert ((q + 1) * K ≤ n * K) by (apply Nat.mul_le_mono_r; lia). lia.
  - intros ->. split; [lia|].
    replace (n * K + k - k) with (n * K) by lia.
    apply Nat.Div0.mod_mul.
Qed.

Lemma stride_index (K n c : nat) : c < K → (n * K + c - c) `div` K = n.
Proof.
  intros Hc. replace (n * K + c - c) with (n * K) by lia.
  apply Nat.div_mul. lia.
Qed.

Section block_design_facts.
Context {A : Type} (zero : A).
Variables (K T N : nat) (partialV : list (list A)).
Hypothesis rows_partialV : length partialV = N.
Hypothesis cols_partialV : Forall (λ row, length row = T) partialV.

Lemma stamp_length V c : length (stamp K T partialV V c) = length V.
Proof. unfold stamp. by rewrite length_imap. Qed.

Lemma stamp_row_length V c i row :
  stamp K T partialV V c !! i = Some row →
  ∃ row0, V !! i = Some row0 ∧ length row = length row0.
Proof.
  unfold stamp. rewrite list_lookup_imap.
  destruct (V !! i) as [row0|]; [|done]. simpl. intros [= <-].
  exists row0. split; [done|].
  case_decide; [|done].
  destruct (partialV !! _); [|done]. by rewrite length_inserts.
Qed.

(** What one pass of the loop does to the entry [(n*K + c, j)]. *)
Lemma stamp_entry V k n c j row :
  n < N → c < K → k < K →
  V !! (n * K + c) = Some row → j < length row →
  entry (stamp K T partialV V k) (n * K + c) j =
    if decide (c = k ∧ k * T ≤ j < k * T + T)
    then entry partialV n (j - k * T)
    else entry V (n * K + c) j.
Proof.
  intros Hn Hc Hk Hrow Hj. unfold entry, stamp. rewrite list_lookup_imap.
  rewrite Hrow. simpl.
  destruct (decide (c = k)) as [->|Hne].
  - rewrite decide_True by (by apply stride_select).
    rewrite stride_index by done.
    destruct (lookup_lt_is_Some_2 partialV n) as [src Hsrc]; [lia|].
    rewrite Hsrc. simpl.
    assert (length src = T) as Hlen
      by (rewrite Forall_lookup in cols_partialV; by eapply cols_partialV).
    case_decide as Hd.
    + rewrite list_lookup_inserts by lia. done.
    + destruct (decide (j < k * T)).
      * by rewrite list_lookup_inserts_lt.
      * rewrite list_lookup_inserts_ge by lia. done.
  - rewrite decide_False by (rewrite stride_select by done; done).
    rewrite decide_False by (intros [? _]; done). done.
Qed.

Lemma block_design_upto_S k :
  block_design_upto zero K T partialV (S k) =
  stamp K T partialV (block_design_upto zero K T partialV k) k.
Proof. unfold block_design_upto. by rewrite seq_S, foldl_app. Qed.

Lemma block_design_upto_shape k :
  length (block_design_upto zero K T partialV k) = K * N ∧
  Forall (λ row, length row = K * T) (block_design_upto zero K T partialV k).
Proof.
  induction k as [|k [IH1 IH2]].
  - unfold block_design_upto, np_zeros. simpl.
    rewrite length_replicate, rows_partialV. split; [done|].
    apply Forall_replicate. by rewrite length_replicate.
  - rewrite block_design_upto_S. split; [by rewrite stamp_length|].
    apply Forall_lookup. intros i row Hrow.
    apply stamp_row_length in Hrow as (row0 & Hrow0 & ->).
    rewrite Forall_lookup in IH2. by eapply IH2.
Qed.

(** Loop invariant: after the classes [0 .. k-1] have been stamped. *)
Lemma block_design_upto_entry k n c j :
  k ≤ K → n < N → c < K → j < K * T →
  entry (block_design_upto zero K T partialV k) (n * K + c) j =
    if decide (c < k ∧ c * T ≤ j < c * T + T)
    then entry partialV n (j - c * T)
    else Some zero.
Proof.
  intros Hk Hn Hc Hj. induction k as [|k IH].
  - rewrite decide_False by lia.
    unfold entry, block_design_upto, np_zeros. simpl.
    rewrite lookup_replicate_2 by (rewrite rows_partialV; nia). simpl.
    by rewrite lookup_replicate_2.
  - destruct (block_design_upto_shape k) as [Hlen Hall].
    destruct (lookup_lt_is_Some_2 (block_design_upto zero K T partialV k)
                (n * K + c)) as [row Hrow]; [rewrite Hlen; nia|].
    rewrite Forall_lookup in Hall.
    rewrite block_design_upto_S.
    rewrite (stamp_entry _ _ _ _ _ row) by (rewrite ?(Hall _ _ Hrow); done || lia).
    rewrite IH by lia.
    destruct (decide (c = k)) as [->|Hne].
    + destruct (decide (k * T ≤ j < k * T + T)).
      * rewrite !decide_True by first [done | split; [lia|done]]. done.
      * rewrite decide_False by (intros [_ ?]; done).
        rewrite decide_False by lia.
        rewrite decide_False by (intros [_ ?]; done). done.
    + rewrite decide_False by (intros [? _]; done).
      destruct (decide (c * T ≤ j < c * T + T)).
      * destruct (decide (c < k)).
        -- by rewrite !decide_True by (split; [lia|done]).
        -- by rewrite !decide_False by lia.
      * by rewrite !decide_False by (intros [_ ?]; done).
Qed.
End block_design_facts.

(** C1.  For a per-class design matrix of [N] rows and [T] columns, the
    stamping loop produces a matrix of [N*K] rows and [T*K] columns whose
    row [n*K + c] carries row [n] of the per-class matrix in the columns
    [c*T .. (c+1)*T - 1] and zero everywhere else; for [N = 2], [K = 2],
    [T = 1] and the per-class matrix [[1],[2]] the result is
    [[1,0],[0,1],[2,0],[0,2]]. *)
Theorem block_design_layout (K T N : nat) (partialV : matrix) :
  length partialV = N →
  Forall (λ row, length row = T) partialV →
  length (block_design 0%R K T partialV) = N * K ∧
  Forall (λ row, length row = T * K) (block_design 0%R K T partialV) ∧
  (∀ n c j, n < N → c < K → j < T * K →
     entry (block_design 0%R K T partialV) (n * K + c) j =
       if decide (c * T ≤ j < (c + 1) * T)
       then entry partialV n (j - c * T)
       else Some 0%R) ∧
  block_design 0%R 2 1 [[1%R]; [2%R]] = [[1; 0]; [0; 1]; [2; 0]; [0; 2]]%R.
Proof.
  intros Hrows Hcols.
  destruct (block_design_upto_shape 0%R K T N partialV Hrows K)
    as [Hlen Hall].
  split; [|split; [|split]].
  - unfold block_design. lia.
  - unfold block_design. by replace (T * K) with (K * T) by lia.
  - intros n c j Hn Hc Hj. unfold block_design.
    rewrite (block_design_upto_entry 0%R K T N) by (done || lia).
    destruct (decide (c * T ≤ j < (c + 1) * T)).
    + by rewrite decide_True by lia.
    + by rewrite decide_False by lia.
  - reflexivity.
Qed.

(** The stamping loop copies entries and computes nothing on them: the
    same toy case on integers. *)
Example block_design_toy_int :
  block_design 0%Z 2 1 [[1%Z]; [2%Z]] = [[1; 0]; [0; 1]; [2; 0]; [0; 2]]%Z.
Proof. reflexivity. Qed.

Lemma block_design_layout_witness :
  length [[1%R]; [2%R]] = 2 ∧
  Forall (λ row : vec, length row = 1) [[1%R]; [2%R]] ∧
  entry (block_design 0%R 2 1 [[1%R]; [2%R]]) (1 * 2 + 1) 1 = Some 2%R.
Proof.
  split; [reflexivity|]. split; [repeat constructor|].
  destruct (block_design_layout 2 1 2 [[1%R]; [2%R]]) as (_ & _ & H & _);
    [reflexivity | repeat constructor |].
  rewrite (H 1 1 1) by lia. reflexivity.
Defined.

(** ** Covariate scaling *)

Section scaling_facts.
Local Open Scope R_scope.

Lemma np_div_Fin a b : b ≠ 0 → np_div a b = Fin (a / b).
Proof. intros Hb. unfold np_div. by destruct (Req_dec_T b 0). Qed.

Lemma np_div_zero_divisor a : ¬ is_finite (np_div a 0).
Proof.
  unfold np_div. destruct (Req_dec_T 0 0); [|done].
  destruct (Rlt_dec 0 a); [by intros []|].
  destruct (Rlt_dec a 0); by intros [].
Qed.

Lemma np_div_zero_zero : np_div 0 0 = NaN.
Proof.
  unfold np_div. destruct (Req_dec_T 0 0); [|done].
  destruct (Rlt_dec 0 0); [lra|]. done.
Qed.

Lemma foldl_Rmin_le x l :
  foldl Rmin x l <= x ∧ ∀ y, y ∈ l → foldl Rmin x l <= y.
Proof.
  revert x. induction l as [|z l IH]; intros x; simpl.
  - split; [lra|]. intros y Hy. by apply elem_of_nil in Hy.
  - destruct (IH (Rmin x z)) as [H1 H2].
    pose proof (Rmin_l x z). pose proof (Rmin_r x z).
    split; [lra|]. intros y [->|Hy]%elem_of_cons; [lra|by apply H2].
Qed.

Lemma foldl_Rmax_ge x l :
  x <= foldl Rmax x l ∧ ∀ y, y ∈ l → y <= foldl Rmax x l.
Proof.
  revert x. induction l as [|z l IH]; intros x; simpl.
  - split; [lra|]. intros y Hy. by apply elem_of_nil in Hy.
  - destruct (IH (Rmax x z)) as [H1 H2].
    pose proof (Rmax_l x z). pose proof (Rmax_r x z).
    split; [lra|]. intros y [->|Hy]%elem_of_cons; [lra|by apply H2].
Qed.

Lemma foldl_Rmin_elem x l : foldl Rmin x l ∈ x :: l.
Proof.
  revert x. induction l as [|z l IH]; intros x; simpl; [by left|].
  specialize (IH (Rmin x z)). unfold Rmin in *.
  destruct (Rle_dec x z).
  - apply elem_of_cons in IH as [->|IH]; [by left|by do 2 right].
  - by right.
Qed.

Lemma foldl_Rmax_elem x l : foldl Rmax x l ∈ x :: l.
Proof.
  revert x. induction l as [|z l IH]; intros x; simpl; [by left|].
  specialize (IH (Rmax x z)). unfold Rmax in *.
  destruct (Rle_dec x z).
  - by right.
  - apply elem_of_cons in IH as [->|IH]; [by left|by do 2 right].
Qed.

Lemma np_min_spec a lo :
  np_min a = Ok lo → lo ∈ a ∧ ∀ x, x ∈ a → lo <= x.
Proof.
  destruct a as [|x a]; [done|]. simpl. intros [= <-].
  split; [apply foldl_Rmin_elem|].
  destruct (foldl_Rmin_le x a) as [H1 H2].
  intros y [->|Hy]%elem_of_cons; [done|by apply H2].
Qed.

Lemma np_max_spec a hi :
  np_max a = Ok hi → hi ∈ a ∧ ∀ x, x ∈ a → x <= hi.
Proof.
  destruct a as [|x a]; [done|]. simpl. intros [= <-].
  split; [apply foldl_Rmax_elem|].
  destruct (foldl_Rmax_ge x a) as [H1 H2].
  intros y [->|Hy]%elem_of_cons; [done|by apply H2].
Qed.

Lemma scale_affine_Fin lo hi raw :
  lo < hi → scale_affine lo hi raw = Fin ((raw - lo) / (hi - lo)).
Proof. intros. unfold scale_affine. apply np_div_Fin. lra. Qed.

Lemma scale_periodic_Fin lo hi raw :
  lo < hi →
  scale_periodic lo hi raw =
    Fin (0.5 * cos (2 * PI * (raw - lo) / (hi - lo)) + 0.5).
Proof.
  intros. unfold scale_periodic. rewrite np_div_Fin by lra. done.
Qed.

End scaling_facts.

Section scaling_claims.
Local Open Scope R_scope.

Lemma read_extrema_Ok timeRaw latRaw lonRaw e :
  read_extrema timeRaw latRaw lonRaw = Ok e →
  np_min timeRaw = Ok (minTime e) ∧ np_max timeRaw = Ok (maxTime e) ∧
  np_min latRaw = Ok (minLat e) ∧ np_max latRaw = Ok (maxLat e) ∧
  np_min lonRaw = Ok (minLon e) ∧ np_max lonRaw = Ok (maxLon e).
Proof.
  unfold read_extrema.
  destruct (np_min timeRaw), (np_max timeRaw), (np_min latRaw),
    (np_max latRaw), (np_min lonRaw), (np_max lonRaw); try done.
  cbn. by intros [= <-].
Qed.

Lemma scale_training_Ok timeRaw latRaw lonRaw e c :
  scale_training timeRaw latRaw lonRaw = Ok (e, c) →
  read_extrema timeRaw latRaw lonRaw = Ok e ∧
  c = scale_covariates e timeRaw latRaw lonRaw.
Proof.
  unfold scale_training.
  destruct (read_extrema timeRaw latRaw lonRaw); [|done].
  cbn. by intros [= <- <-].
Qed.





Lemma scale_training_example :
  scale_training ex_timeRaw ex_latRaw ex_lonRaw =
    Ok (ex_extrema, scale_covariates ex_extrema ex_timeRaw ex_latRaw ex_lonRaw).
Proof.
  unfold scale_training, read_extrema, ex_timeRaw, ex_latRaw, ex_lonRaw.
  cbn.
  rewrite !Rmin_left, !Rmax_right by lra. reflexivity.
Qed.


End scaling_claims.

Section scaling_injectivity.
Local Open Scope R_scope.

Lemma scale_affine_inj lo hi a b :
  lo < hi → scale_affine lo hi a = scale_affine lo hi b → a = b.
Proof.
  intros Hlt. rewrite !scale_affine_Fin by done. intros [= Heq].
  apply (Rmult_eq_compat_r (hi - lo)) in Heq.
  unfold Rdiv in Heq. rewrite !Rmult_assoc, Rinv_l in Heq by lra. lra.
Qed.

Lemma scale_periodic_ends lo hi :
  lo < hi → scale_periodic lo hi lo = scale_periodic lo hi hi.
Proof.
  intros Hlt. rewrite !scale_periodic_Fin by done. do 2 f_equal.
  replace (2 * PI * (lo - lo) / (hi - lo)) with 0 by (field; lra).
  replace (2 * PI * (hi - lo) / (hi - lo)) with (2 * PI) by (field; lra).
  by rewrite cos_0, cos_2PI.
Qed.

(** C9.  When the maxima exceed the minima, the time and the latitude
    scalings are injective, and the longitude scaling is not: two
    distinct raw longitudes of the data (the smallest and the largest)
    have the same scaled value. *)
Theorem scaling_injectivity timeRaw latRaw lonRaw e c :
  scale_training timeRaw latRaw lonRaw = Ok (e, c) →
  minTime e < maxTime e → minLat e < maxLat e → minLon e < maxLon e →
  (∀ a b, scale_affine (minTime e) (maxTime e) a
            = scale_affine (minTime e) (maxTime e) b → a = b) ∧
  (∀ a b, scale_affine (minLat e) (maxLat e) a
            = scale_affine (minLat e) (maxLat e) b → a = b) ∧
  (∃ l1 l2, l1 ∈ lonRaw ∧ l2 ∈ lonRaw ∧ l1 ≠ l2 ∧
     scale_periodic (minLon e) (maxLon e) l1
       = scale_periodic (minLon e) (maxLon e) l2).
Proof.
  intros [He ->]%scale_training_Ok Ht Ha Ho.
  apply read_extrema_Ok in He as (_ & _ & _ & _ & Ho0 & Ho1).
  apply np_min_spec in Ho0 as [Hmin _].
  apply np_max_spec in Ho1 as [Hmax _].
  split; [|split].
  - intros a b. by apply scale_affine_inj.
  - intros a b. by apply scale_affine_inj.
  - exists (minLon e), (maxLon e). repeat split; [done..|lra|].
    by apply scale_periodic_ends.
Qed.

Lemma scaling_injectivity_witness :
  scale_training ex_timeRaw ex_latRaw ex_lonRaw =
    Ok (ex_extrema, scale_covariates ex_extrema ex_timeRaw ex_latRaw ex_lonRaw) ∧
  (∃ l1 l2, l1 ∈ ex_lonRaw ∧ l2 ∈ ex_lonRaw ∧ l1 ≠ l2 ∧
     scale_periodic 0 360 l1 = scale_periodic 0 360 l2).
Proof.
  split; [apply scale_training_example|].
  eapply (scaling_injectivity ex_timeRaw ex_latRaw ex_lonRaw ex_extrema);
    [apply scale_training_example | simpl; lra..].
Defined.
End scaling_injectivity.

Section scaling_division.
Local Open Scope R_scope.

Lemma scale_affine_degenerate lo x : ¬ is_finite (scale_affine lo lo x).
Proof.
  unfold scale_affine. replace (lo - lo) with 0 by lra.
  apply np_div_zero_divisor.
Qed.

Lemma scale_affine_degenerate_data lo : scale_affine lo lo lo = NaN.
Proof.
  unfold scale_affine. replace (lo - lo) with 0 by lra.
  apply np_div_zero_zero.
Qed.

Lemma scale_periodic_degenerate lo x : scale_periodic lo lo x = NaN.
Proof.
  unfold scale_periodic. replace (lo - lo) with 0 by lra.
  pose proof (np_div_zero_divisor (2 * PI * (x - lo))) as Hnf.
  destruct (np_div (2 * PI * (x - lo)) 0) eqn:Hd; simpl in *; done.
Qed.

Lemma extrema_order raw lo hi :
  np_min raw = Ok lo → np_max raw = Ok hi → lo <= hi.
Proof. intros [Hin _]%np_min_spec [_ Hhi]%np_max_spec. by apply Hhi. Qed.

Lemma all_equal_extrema raw lo hi :
  np_min raw = Ok lo → np_max raw = Ok hi →
  (∀ x y, x ∈ raw → y ∈ raw → x = y) ↔ hi = lo.
Proof.
  intros [Hlo_in Hlo]%np_min_spec [Hhi_in Hhi]%np_max_spec. split.
  - intros Hall. by apply Hall.
  - intros -> x y Hx Hy.
    pose proof (Hlo x Hx). pose proof (Hhi x Hx).
    pose proof (Hlo y Hy). pose proof (Hhi y Hy). lra.
Qed.

(** C10.  The scaling formulas divide by [max - min] with no guard.  For
    a raw coordinate whose values are all equal, every scaled training
    value is [nan] and no value scaled with these extrema is finite;
    when the maximum exceeds the minimum, every scaled value is finite
    (the division by zero does not occur).  One of the two cases always
    applies. *)
Theorem scaling_division_by_zero (raw : vec) (lo hi : R) :
  np_min raw = Ok lo → np_max raw = Ok hi →
  ((∀ x y, x ∈ raw → y ∈ raw → x = y) →
     Forall (λ v, v = NaN) (scale_affine lo hi <$> raw) ∧
     Forall (λ v, v = NaN) (scale_periodic lo hi <$> raw) ∧
     ∀ new, ¬ is_finite (scale_affine lo hi new) ∧
            ¬ is_finite (scale_periodic lo hi new)) ∧
  (lo < hi →
     Forall is_finite (scale_affine lo hi <$> raw) ∧
     Forall is_finite (scale_periodic lo hi <$> raw) ∧
     ∀ new, is_finite (scale_affine lo hi new) ∧
            is_finite (scale_periodic lo hi new)) ∧
  ((∀ x y, x ∈ raw → y ∈ raw → x = y) ∨ lo < hi).
Proof.
  intros Hmin Hmax.
  pose proof (all_equal_extrema raw lo hi Hmin Hmax) as Heq.
  pose proof (extrema_order raw lo hi Hmin Hmax) as Hle.
  split; [|split].
  - intros Hall. apply Heq in Hall as Hhl. subst hi.
    apply np_min_spec in Hmin as [Hlo_in _].
    split; [|split].
    + apply Forall_fmap, Forall_forall. intros x Hx. simpl.
      rewrite (Hall x lo Hx Hlo_in). apply scale_affine_degenerate_data.
    + apply Forall_fmap, Forall_forall. intros x Hx.
      apply scale_periodic_degenerate.
    + intros new. split; [apply scale_affine_degenerate|].
      rewrite scale_periodic_degenerate. by intros [].
  - intros Hlt. split; [|split].
    + apply Forall_fmap, Forall_forall. intros x _. simpl.
      by rewrite scale_affine_Fin.
    + apply Forall_fmap, Forall_forall. intros x _. simpl.
      by rewrite scale_periodic_Fin.
    + intros new. by rewrite scale_affine_Fin, scale_periodic_Fin.
  - destruct (Rle_lt_or_eq_dec lo hi Hle) as [Hlt|Hhl]; [by right|].
    left. by apply Heq.
Qed.

Lemma scaling_division_by_zero_witness :
  np_min [5] = Ok 5 ∧ np_max [5] = Ok 5 ∧
  Forall (λ v, v = NaN) (scale_affine 5 5 <$> [5]) ∧
  ¬ is_finite (scale_affine 5 5 7).
Proof.
  split; [reflexivity|]. split; [reflexivity|].
  destruct (scaling_division_by_zero [5] 5 5) as [Hdeg _];
    [reflexivity..|].
  destruct Hdeg as (Htrain & _ & Hnew).
  - intros x y ->%list_elem_of_singleton ->%list_elem_of_singleton.
    reflexivity.
  - split; [exact Htrain | apply Hnew].
Defined.
End scaling_division.


(** ** The posterior work graph *)

Section posterior_facts.
Variables (K T N : nat) (partialV : matrix) (ages : list nat).

Local Abbreviation g := (graph K T partialV ages).

Lemma eval_node_unfold fuel (gr : WorkGraph) arg name :
  eval_node (S fuel) gr arg name =
    match nodes gr !! name with
    | None => Raise RuntimeError
    | Some p =>
        inputs ← mapM (λ k,
                    match incoming (edges gr) name k with
                    | Some (src, O) => eval_node fuel gr arg src
                    | Some (_, S _) => Raise RuntimeError
                    | None => Ok arg
                    end) (seq 0 (numInputs p));
        Evaluate p inputs
    end.
Proof. reflexivity. Qed.

Lemma graph_size : size (nodes g) = 5.
Proof.
  unfold graph, AddNode, AddEdge, empty_graph. simpl.
  rewrite !map_size_insert_None; [by rewrite map_size_empty|..];
    by simplify_map_eq.
Qed.

Ltac graph_lookup :=
  unfold graph, AddNode, AddEdge, empty_graph; simpl; by simplify_map_eq.

Lemma node_Parameters : nodes g !! "Parameters" = Some (IdentityOperator (paramDim K T)).
Proof. graph_lookup. Qed.
Lemma node_Posterior : nodes g !! "Posterior" = Some (DensityProduct 2).
Proof. graph_lookup. Qed.
Lemma node_Prior : nodes g !! "Prior" = Some (prior K T).
Proof. graph_lookup. Qed.
Lemma node_ForwardModel :
  nodes g !! "ForwardModel" = Some (forwardModel K T partialV).
Proof. graph_lookup. Qed.
Lemma node_Likelihood : nodes g !! "Likelihood" = Some (likelihood K ages).
Proof. graph_lookup. Qed.

Local Abbreviation wiring :=
  [("Parameters", 0, "Prior", 0); ("Parameters", 0, "ForwardModel", 0);
   ("ForwardModel", 0, "Likelihood", 0); ("Likelihood", 0, "Posterior", 1);
   ("Prior", 0, "Posterior", 0)].

Lemma graph_edges : edges g = wiring.
Proof. reflexivity. Qed.

Lemma edge_Parameters : incoming wiring "Parameters" 0 = None.
Proof. reflexivity. Qed.
Lemma edge_Prior : incoming wiring "Prior" 0 = Some ("Parameters", 0).
Proof. reflexivity. Qed.
Lemma edge_ForwardModel :
  incoming wiring "ForwardModel" 0 = Some ("Parameters", 0).
Proof. reflexivity. Qed.
Lemma edge_Likelihood :
  incoming wiring "Likelihood" 0 = Some ("ForwardModel", 0).
Proof. reflexivity. Qed.
Lemma edge_Posterior_0 : incoming wiring "Posterior" 0 = Some ("Prior", 0).
Proof. reflexivity. Qed.
Lemma edge_Posterior_1 :
  incoming wiring "Posterior" 1 = Some ("Likelihood", 0).
Proof. reflexivity. Qed.

Hypothesis rows_partialV : length partialV = N.
Hypothesis rows_ages : length ages = N.

#[local] Arguments incoming : simpl never.
#[local] Arguments eval_node : simpl never.

Lemma eval_Parameters fuel m :
  length m = K * T → eval_node (S fuel) g m "Parameters" = Ok m.
Proof.
  intros Hm. rewrite eval_node_unfold, node_Parameters. cbn.
  rewrite edge_Parameters. cbn. by rewrite decide_True.
Qed.

Lemma eval_Prior fuel m :
  length m = K * T →
  eval_node (S (S fuel)) g m "Prior" = Ok [prior_log_density K T m].
Proof.
  intros Hm. rewrite eval_node_unfold, node_Prior. cbn.
  rewrite edge_Prior, eval_Parameters by done. cbn.
  rewrite decide_True; [done|].
  by rewrite length_replicate.
Qed.

Lemma eval_ForwardModel fuel m :
  length m = K * T →
  eval_node (S (S fuel)) g m "ForwardModel" = Ok (matvec (V_train K T partialV) m).
Proof.
  intros Hm. rewrite eval_node_unfold, node_ForwardModel. cbn.
  rewrite edge_ForwardModel, eval_Parameters by done. cbn.
  by rewrite decide_True.
Qed.

Lemma V_train_length : length (V_train K T partialV) = K * N.
Proof.
  unfold V_train, block_design.
  by destruct (block_design_upto_shape 0%R K T N partialV rows_partialV K).
Qed.

Lemma eval_Likelihood fuel m :
  length m = K * T →
  eval_node (S (S (S fuel))) g m "Likelihood" =
    Ok [likelihood_log_density K (matvec (V_train K T partialV) m) ages].
Proof.
  intros Hm. rewrite eval_node_unfold, node_Likelihood. cbn.
  rewrite edge_Likelihood, eval_ForwardModel by done. cbn.
  rewrite decide_True; [done|].
  unfold matvec. by rewrite length_fmap, V_train_length, rows_ages.
Qed.

Lemma eval_Posterior fuel m :
  length m = K * T →
  eval_node (S (S (S (S fuel)))) g m "Posterior" =
    Ok [(prior_log_density K T m
         + likelihood_log_density K (matvec (V_train K T partialV) m) ages)%R].
Proof.
  intros Hm. rewrite eval_node_unfold, node_Posterior. cbn.
  rewrite edge_Posterior_0, edge_Posterior_1.
  rewrite eval_Prior, eval_Likelihood by done. cbn.
  rewrite decide_True by (split; [done|by repeat constructor]).
  by rewrite Rplus_0_l.
Qed.
End posterior_facts.

(** C2.  For every parameter vector [m] (of the length [K*T] of the
    graph's input) and every label array [y] (one label per observation),
    the Posterior node evaluates to exactly
    [prior_log_density(m) + likelihood_log_density(V@m, y)], with [V] the
    block design matrix, the prior the zero-mean Gaussian of variance 100
    and the likelihood the multinomial-logit log-probability of [y]. *)
Theorem posterior_is_prior_plus_likelihood
    (K T : nat) (partialV : matrix) (y : list nat) (m : vec) :
  length y = length partialV →
  length m = K * T →
  posterior K T partialV y m =
    Ok [(prior_log_density K T m
         + likelihood_log_density K
             (matvec (block_design 0%R K T partialV) m) y)%R].
Proof.
  intros Hy Hm. unfold posterior, CreateModPiece.
  rewrite graph_size.
  by apply (eval_Posterior K T (length partialV)).
Qed.

Lemma posterior_is_prior_plus_likelihood_witness :
  length [0; 1] = length [[1%R]; [2%R]] ∧
  length [0%R; 0%R] = 2 * 1 ∧
  posterior 2 1 [[1%R]; [2%R]] [0; 1] [0%R; 0%R] =
    Ok [(prior_log_density 2 1 [0; 0]
         + likelihood_log_density 2
             (matvec (block_design 0 2 1 [[1]; [2]]) [0; 0]) [0; 1]%nat)%R].
Proof.
  split; [reflexivity|]. split; [reflexivity|].
  apply posterior_is_prior_plus_likelihood; reflexivity.
Defined.

(** ** The end-to-end scenario *)

Section scenario.
Local Open Scope R_scope.

Lemma dot_zeros row n : dot row (replicate n 0) = 0.
Proof.
  unfold dot. revert n. induction row as [|a row IH]; intros [|n]; simpl;
    try done.
  unfold sum_list in IH. rewrite IH. lra.
Qed.

Lemma matvec_zeros (V : matrix) n :
  matvec V (replicate n 0) = replicate (length V) 0.
Proof.
  unfold matvec. induction V as [|row V IH]; csimpl; [done|].
  by rewrite dot_zeros, IH.
Qed.

Lemma ln_half : ln (1 / 2) = - ln 2.
Proof. unfold Rdiv. rewrite Rmult_1_l. apply ln_Rinv. lra. Qed.

Lemma ln_2_pos : 0 < ln 2.
Proof. rewrite <- ln_1. apply ln_increasing; lra. Qed.

(** With a zero predictor every class has probability [1/K]. *)
Lemma scenario_likelihood_zero :
  likelihood_log_density 2 (replicate (2 * 4) 0) scenario_labels
    = 4 * ln (1 / 2).
Proof.
  unfold likelihood_log_density, multilogit_log_density, class_scores,
    scenario_labels.
  simpl. rewrite exp_0, ln_half.
  replace (1 + (1 + 0)) with 2 by lra. lra.
Qed.

Lemma scenario_posterior_zero :
  scenario_posterior scenario_zeros =
    Ok [prior_log_density 2 2 scenario_zeros + 4 * ln (1 / 2)].
Proof.
  unfold scenario_posterior, posterior, CreateModPiece.
  rewrite graph_size.
  rewrite (eval_Posterior 2 2 4) by reflexivity.
  unfold scenario_zeros. rewrite matvec_zeros.
  rewrite (V_train_length 2 2 4) by reflexivity.
  by rewrite scenario_likelihood_zero.
Qed.

(** C4 (amended).  In the scenario, the posterior at the all-zeros
    parameter vector equals the prior log-density at zero plus the
    likelihood log-density, which is [N*log(1/K) = 4*log(0.5)] since
    [V@0 = 0]. *)
Theorem scenario_posterior_at_zero :
  matvec (V_train 2 2 scenario_partialV) scenario_zeros = replicate 8 0 ∧
  likelihood_log_density 2
    (matvec (V_train 2 2 scenario_partialV) scenario_zeros) scenario_labels
    = 4 * ln 0.5 ∧
  scenario_posterior scenario_zeros =
    Ok [prior_log_density 2 2 scenario_zeros + 4 * ln 0.5].
Proof.
  assert (0.5 = 1 / 2) as -> by lra.
  assert (matvec (V_train 2 2 scenario_partialV) scenario_zeros
          = replicate (2 * 4) 0) as Hzero.
  { unfold scenario_zeros. rewrite matvec_zeros.
    by rewrite (V_train_length 2 2 4). }
  split; [exact Hzero|]. split.
  - rewrite Hzero. apply scenario_likelihood_zero.
  - apply scenario_posterior_zero.
Qed.

(** C4 as stated fails: the posterior at zero is not the prior
    log-density at zero, the likelihood term [4*log(0.5)] is not zero. *)
Lemma scenario_posterior_not_prior :
  scenario_posterior scenario_zeros ≠ Ok [prior_log_density 2 2 scenario_zeros].
Proof.
  rewrite scenario_posterior_zero. intros [= Heq].
  rewrite ln_half in Heq. pose proof ln_2_pos. lra.
Qed.
End scenario.

(** ** binary64 arithmetic *)

Section binary64_facts.
Local Open Scope R_scope.
#[local] Arguments pow2 : simpl never.

(** The position of the leading bit of [x]. *)
Local Abbreviation ilog2 x := (Zfloor (ln (Rabs x) / ln 2)).

Lemma pow2_pos e : 0 < pow2 e.
Proof. apply powerRZ_lt. lra. Qed.

Lemma pow2_add a b : pow2 (a + b) = pow2 a * pow2 b.
Proof. apply powerRZ_add. lra. Qed.

Lemma pow2_opp a : pow2 (- a) = / pow2 a.
Proof. apply powerRZ_neg'. Qed.

Lemma pow2_nat (n : nat) : pow2 (Z.of_nat n) = 2 ^ n.
Proof. unfold pow2. by rewrite <- pow_powerRZ. Qed.

Lemma pow2_le a b : (a ≤ b)%Z → pow2 a <= pow2 b.
Proof.
  intros Hab. replace b with (a + Z.of_nat (Z.to_nat (b - a)))%Z by lia.
  rewrite pow2_add, pow2_nat.
  pose proof (pow2_pos a).
  pose proof (pow_R1_Rle 2 (Z.to_nat (b - a)) ltac:(lra)). nra.
Qed.

Lemma ln2_pos : 0 < ln 2.
Proof. pose proof ln_lt_2. lra. Qed.

Lemma pow2_exp e : pow2 e = exp (IZR e * ln 2).
Proof. unfold pow2. rewrite powerRZ_Rpower by lra. reflexivity. Qed.

Lemma exp_le_mono x y : x <= y → exp x <= exp y.
Proof.
  intros [Hlt| ->]; [|lra]. left. by apply exp_increasing.
Qed.

(** The binade of a nonzero real. *)
Lemma binade x :
  x ≠ 0 →
  pow2 (Zfloor (ln (Rabs x) / ln 2)) <= Rabs x
    < pow2 (Zfloor (ln (Rabs x) / ln 2) + 1).
Proof.
  intros Hx. pose proof (Rabs_pos_lt x Hx) as Hpos.
  pose proof (Zfloor_bound (ln (Rabs x) / ln 2)) as [Hlo Hhi].
  pose proof ln2_pos as Hln.
  rewrite !pow2_exp. rewrite <- (exp_ln (Rabs x)) at 2 3 by done.
  split.
  - apply exp_le_mono.
    apply (Rmult_le_compat_r (ln 2)) in Hlo; [|lra].
    unfold Rdiv in Hlo. rewrite Rmult_assoc, Rinv_l, Rmult_1_r in Hlo by lra.
    done.
  - apply exp_increasing. rewrite plus_IZR.
    apply (Rmult_lt_compat_r (ln 2)) in Hhi; [|lra].
    unfold Rdiv in Hhi. rewrite Rmult_assoc, Rinv_l, Rmult_1_r in Hhi by lra.
    lra.
Qed.

Lemma round_half_even_error y : Rabs (IZR (round_half_even y) - y) <= 1 / 2.
Proof.
  unfold round_half_even. pose proof (Zfloor_bound y) as [Hlo Hhi].
  repeat destruct (Rlt_dec _ _); try destruct (Z.even _);
    rewrite ?plus_IZR; apply Rabs_le; lra.
Qed.

Lemma round_half_even_IZR n : round_half_even (IZR n) = n.
Proof.
  unfold round_half_even.
  rewrite (Zfloor_eq n (IZR n)) by lra.
  destruct (Rlt_dec _ _); [done|lra].
Qed.

Lemma rnd_error x : Rabs (rnd x - x) <= pow2 (ulp_exp x) / 2.
Proof.
  unfold rnd. set (e := ulp_exp x).
  pose proof (pow2_pos e) as He.
  pose proof (round_half_even_error (x * pow2 (- e))) as Hr.
  revert Hr. generalize (round_half_even (x * pow2 (- e))). intros n Hr.
  replace (IZR n * pow2 e - x) with ((IZR n - x * pow2 (- e)) * pow2 e).
  2: { rewrite pow2_opp. field. lra. }
  rewrite Rabs_mult, (Rabs_pos_eq (pow2 e)) by lra. nra.
Qed.

Lemma ulp_exp_normal x :
  pow2 (-1022) <= Rabs x →
  ulp_exp x = (Zfloor (ln (Rabs x) / ln 2) - 52)%Z.
Proof.
  intros Hx. unfold ulp_exp.
  assert (-1022 ≤ Zfloor (ln (Rabs x) / ln 2))%Z; [|lia].
  apply Zfloor_lub. pose proof ln2_pos as Hln.
  pose proof (pow2_pos (-1022)) as Hpos.
  apply (Rmult_le_reg_r (ln 2)); [done|].
  unfold Rdiv. rewrite Rmult_assoc, Rinv_l, Rmult_1_r by lra.
  rewrite <- (ln_exp (IZR (-1022) * ln 2)), <- pow2_exp.
  destruct Hx as [Hx|Hx]; [left; by apply ln_increasing|right; by rewrite Hx].
Qed.

(** In the normal range the error is relative. *)
Lemma rnd_rel x :
  pow2 (-1022) <= Rabs x → Rabs (rnd x - x) <= f64_eps * Rabs x.
Proof.
  intros Hx. pose proof (rnd_error x) as Herr.
  rewrite (ulp_exp_normal x Hx) in Herr.
  assert (x ≠ 0) as Hx0.
  { intros ->. rewrite Rabs_R0 in Hx. pose proof (pow2_pos (-1022)). lra. }
  destruct (binade x Hx0) as [Hlo _].
  revert Herr Hlo. generalize (Zfloor (ln (Rabs x) / ln 2)). intros k Herr Hlo.
  replace (k - 52)%Z with (k + -52)%Z in Herr by lia.
  rewrite pow2_add in Herr.
  unfold f64_eps. replace (-53)%Z with (-52 + -1)%Z by lia.
  rewrite pow2_add.
  replace (pow2 (-1)) with (/ 2) by (unfold pow2; simpl; lra).
  pose proof (pow2_pos (-52)). pose proof (pow2_pos k). nra.
Qed.

Lemma rnd_0 : rnd 0 = 0.
Proof.
  unfold rnd. rewrite Rmult_0_l.
  change 0 with (IZR 0) at 1. rewrite round_half_even_IZR. lra.
Qed.

Lemma ulp_exp_subnormal x :
  x ≠ 0 → Rabs x < pow2 (-1022) → ulp_exp x = (-1074)%Z.
Proof.
  intros Hx0 Hs. unfold ulp_exp.
  destruct (binade x Hx0) as [Hlo _].
  assert (Zfloor (ln (Rabs x) / ln 2) < -1022)%Z; [|lia].
  apply Z.nle_gt. intros Hle. apply pow2_le in Hle. lra.
Qed.

Lemma rnd_abs x : Rabs (rnd x - x) <= f64_eps * Rabs x + f64_eta.
Proof.
  pose proof (Rabs_pos x) as Hx.
  pose proof (pow2_pos (-53)) as Hu. pose proof (pow2_pos (-1075)) as Heta.
  unfold f64_eps, f64_eta.
  destruct (Rle_lt_dec (pow2 (-1022)) (Rabs x)) as [Hn|Hs].
  - pose proof (rnd_rel x Hn). unfold f64_eps in *. lra.
  - destruct (Req_dec_T x 0) as [->|Hx0].
    + rewrite rnd_0, Rminus_diag, Rabs_R0. nra.
    + pose proof (rnd_error x) as Herr.
      rewrite (ulp_exp_subnormal x Hx0 Hs) in Herr.
      replace (-1074)%Z with (-1075 + 1)%Z in Herr by lia.
      rewrite pow2_add in Herr.
      replace (pow2 1) with 2 in Herr by (unfold pow2; simpl; lra).
      nra.
Qed.

Lemma pow2_IZR (n : nat) : pow2 (Z.of_nat n) = IZR (2 ^ Z.of_nat n).
Proof. by rewrite pow2_nat, pow_IZR. Qed.

Lemma rnd_1 : rnd 1 = 1.
Proof.
  unfold rnd.
  assert (ulp_exp 1 = (-52)%Z) as ->.
  { unfold ulp_exp. rewrite Rabs_R1, ln_1.
    unfold Rdiv. rewrite Rmult_0_l.
    rewrite (Zfloor_eq 0 0) by lra. lia. }
  rewrite Rmult_1_l.
  change (- -52)%Z with (Z.of_nat 52). rewrite pow2_IZR.
  rewrite round_half_even_IZR, <- pow2_IZR.
  change (-52)%Z with (- Z.of_nat 52)%Z. rewrite pow2_opp.
  apply Rinv_r. pose proof (pow2_pos (Z.of_nat 52)). lra.
Qed.

(** *** Bounds on exp and powers of two *)

Lemma exp_upper t : 0 <= t < 1 → exp t * (1 - t) <= 1.
Proof.
  intros Ht. pose proof (exp_ineq1_le (- t)) as Hlow.
  pose proof (exp_pos t) as Hpos.
  assert (exp t * exp (- t) = 1) as Hinv.
  { rewrite <- exp_plus, Rplus_opp_r. apply exp_0. }
  nra.
Qed.

Lemma exp_double x : exp (2 * x) = exp x * exp x.
Proof. rewrite <- exp_plus. f_equal. lra. Qed.

Lemma square_bound x b b' : 0 <= x <= b → b * b <= b' → x * x <= b'.
Proof. intros Hx Hb. nra. Qed.

Lemma exp_below_2 : exp (700 / 1013) <= 2.
Proof.
  set (t := 700 / 1013 / 256).
  assert (exp t <= 1.002706590161) as H0.
  { pose proof (exp_upper t ltac:(unfold t; lra)) as Hup.
    pose proof (exp_pos t). unfold t in *. nra. }
  assert (∀ x b b', exp x <= b → b * b <= b' → exp (2 * x) <= b') as Hstep.
  { intros x b b' Hx Hb. rewrite exp_double.
    apply (square_bound _ b); [|done]. pose proof (exp_pos x). lra. }
  apply (Hstep _ _ 1.005420505953) in H0; [|lra].
  apply (Hstep _ _ 1.010870393791) in H0; [|lra].
  apply (Hstep _ _ 1.021858953044) in H0; [|lra].
  apply (Hstep _ _ 1.044195719917) in H0; [|lra].
  apply (Hstep _ _ 1.090344701493) in H0; [|lra].
  apply (Hstep _ _ 1.188851568074) in H0; [|lra].
  apply (Hstep _ _ 1.413368050913) in H0; [|lra].
  apply (Hstep _ _ 1.997609247342) in H0; [|lra].
  replace (700 / 1013) with (2 * (2 * (2 * (2 * (2 * (2 * (2 * (2 * t))))))))
    by (unfold t; lra).
  lra.
Qed.

Lemma ln2_lower : 700 <= 1013 * ln 2.
Proof.
  destruct (Rle_lt_dec (700 / 1013) (ln 2)) as [Hle|Hlt]; [lra|].
  apply exp_increasing in Hlt. rewrite exp_ln in Hlt by lra.
  pose proof exp_below_2. lra.
Qed.

Lemma square_bound_below x b b' : 0 <= b <= x → b' <= b * b → b' <= x * x.
Proof. intros Hx Hb. nra. Qed.

Lemma exp_above_2 : 2 <= exp (710 / 1024).
Proof.
  set (t := 710 / 1024 / 4096).
  assert (1.000169277191162 <= exp t) as H0.
  { pose proof (exp_ineq1_le t). unfold t in *. lra. }
  assert (∀ x b b', 0 <= b → b <= exp x → b' <= b * b → b' <= exp (2 * x))
    as Hstep.
  { intros x b b' Hb Hx Hb'. rewrite exp_double.
    by apply (square_bound_below _ b). }
  apply (Hstep _ _ 1.000338583037091) in H0; [|lra..].
  apply (Hstep _ _ 1.000677280712655) in H0; [|lra..].
  apply (Hstep _ _ 1.001355020134473) in H0; [|lra..].
  apply (Hstep _ _ 1.00271187634851) in H0; [|lra..].
  apply (Hstep _ _ 1.005431106970349) in H0; [|lra..].
  apply (Hstep _ _ 1.010891710863621) in H0; [|lra..].
  apply (Hstep _ _ 1.021902051092778) in H0; [|lra..].
  apply (Hstep _ _ 1.044283802027626) in H0; [|lra..].
  apply (Hstep _ _ 1.090528659177273) in H0; [|lra..].
  apply (Hstep _ _ 1.18925275648698) in H0; [|lra..].
  apply (Hstep _ _ 1.41432211881188) in H0; [|lra..].
  apply (Hstep _ _ 2.000307055760525) in H0; [|lra..].
  replace (710 / 1024)
    with (2 * (2 * (2 * (2 * (2 * (2 * (2 * (2 * (2 * (2 * (2 * (2 * t))))))))))))
    by (unfold t; lra).
  lra.
Qed.

Lemma ln2_upper : 1024 * ln 2 <= 710.
Proof.
  destruct (Rle_lt_dec (ln 2) (710 / 1024)) as [Hle|Hlt]; [lra|].
  apply exp_increasing in Hlt. rewrite exp_ln in Hlt by lra.
  pose proof exp_above_2. lra.
Qed.

Lemma exp_710_lower x : 710 <= x → pow2 1024 <= exp x.
Proof.
  intros Hx. rewrite pow2_exp. apply exp_le_mono.
  pose proof ln2_upper. lra.
Qed.

Lemma exp_700_upper x : x <= 700 → exp x <= pow2 1013.
Proof.
  intros Hx. rewrite pow2_exp. apply exp_le_mono.
  pose proof ln2_lower. lra.
Qed.

Lemma exp_700_lower x : -700 <= x → pow2 (-1013) <= exp x.
Proof.
  intros Hx. rewrite pow2_exp. apply exp_le_mono.
  pose proof ln2_lower. lra.
Qed.

Lemma max_float_pow2 : max_float < pow2 1024.
Proof.
  unfold max_float. change 1024%Z with (Z.of_nat (53 + 971)).
  rewrite pow2_nat, pow_add.
  assert (0 < 2 ^ 971) by (apply pow_lt; lra). nra.
Qed.

Lemma max_float_lower : pow2 1023 <= max_float.
Proof.
  unfold max_float. change 1023%Z with (Z.of_nat (52 + 971)).
  rewrite pow2_nat, pow_add.
  assert (0 < 2 ^ 971) by (apply pow_lt; lra).
  apply Rmult_le_compat_r; [lra|]. simpl. lra.
Qed.

(** *** Results that stay finite *)

Lemma Rabs_bound x b : Rabs x <= b → - b <= x <= b.
Proof. unfold Rabs. destruct (Rcase_abs x); lra. Qed.


Lemma round_half_even_nonneg y : 0 <= y → (0 ≤ round_half_even y)%Z.
Proof.
  intros Hy. unfold round_half_even.
  assert (0 ≤ Zfloor y)%Z by (by apply Zfloor_lub).
  repeat destruct (Rlt_dec _ _); try destruct (Z.even _); lia.
Qed.

Lemma rnd_nonneg x : 0 <= x → 0 <= rnd x.
Proof.
  intros Hx. unfold rnd.
  pose proof (pow2_pos (ulp_exp x)). pose proof (pow2_pos (- ulp_exp x)).
  apply Rmult_le_pos; [|lra].
  apply IZR_le, round_half_even_nonneg. nra.
Qed.

Lemma fl_Fin x : - max_float <= rnd x <= max_float → fl x = Fin (rnd x).
Proof.
  intros Hx. unfold fl.
  destruct (Rlt_dec _ _); [lra|]. destruct (Rlt_dec _ _); [lra|]. done.
Qed.

Lemma fl_PInf x : max_float < rnd x → fl x = PInf.
Proof. intros Hx. unfold fl. by destruct (Rlt_dec _ _). Qed.

Lemma max_float_pos : 0 < max_float.
Proof. pose proof max_float_lower. pose proof (pow2_pos 1023). lra. Qed.

Lemma max_float_1014 : 1023 * pow2 1014 <= max_float.
Proof.
  unfold max_float. change 1014%Z with (Z.of_nat (43 + 971)).
  rewrite pow2_nat, pow_add.
  assert (0 < 2 ^ 971) by (apply pow_lt; lra).
  rewrite <- Rmult_assoc. apply Rmult_le_compat_r; [lra|]. simpl. lra.
Qed.

Lemma f64_eps_value : f64_eps = / 9007199254740992.
Proof.
  unfold f64_eps. change (-53)%Z with (- Z.of_nat 53)%Z.
  rewrite pow2_opp, pow2_nat. f_equal. simpl. lra.
Qed.

Lemma f64_eta_le_eps : f64_eta <= f64_eps.
Proof. apply pow2_le. lia. Qed.

(** A positive real of the normal range is rounded with a relative error
    of at most [f64_eps]. *)
Lemma rnd_rel_pos x :
  pow2 (-1022) <= x →
  x * (1 - f64_eps) <= rnd x <= x * (1 + f64_eps).
Proof.
  intros Hx. pose proof (pow2_pos (-1022)).
  pose proof (rnd_rel x) as Hrel. rewrite (Rabs_pos_eq x) in Hrel by lra.
  specialize (Hrel Hx). apply Rabs_bound in Hrel. lra.
Qed.

(** *** Rounding is monotone and leaves float64 numbers unchanged *)

Lemma round_half_even_range y :
  (Zfloor y ≤ round_half_even y ≤ Zfloor y + 1)%Z.
Proof.
  unfold round_half_even.
  repeat destruct (Rlt_dec _ _); try destruct (Z.even _); lia.
Qed.

Lemma round_half_even_mono y1 y2 :
  y1 <= y2 → (round_half_even y1 ≤ round_half_even y2)%Z.
Proof.
  intros Hy. pose proof (Zfloor_le y1 y2 Hy) as Hf.
  destruct (Z.eq_dec (Zfloor y1) (Zfloor y2)) as [Heq|Hne].
  - unfold round_half_even. rewrite Heq.
    repeat destruct (Rlt_dec _ _); try destruct (Z.even _); try lia; lra.
  - pose proof (round_half_even_range y1). pose proof (round_half_even_range y2).
    lia.
Qed.

Lemma pow2_Z (z : Z) : (0 ≤ z)%Z → pow2 z = IZR (2 ^ z).
Proof.
  intros Hz. rewrite <- (Z2Nat.id z Hz). apply pow2_IZR.
Qed.

Lemma scaled_cancel x e : x * pow2 (- e) * pow2 e = x.
Proof.
  rewrite pow2_opp. pose proof (pow2_pos e). field. lra.
Qed.

(** A multiple of the last place of [x] above (below) [x] is above
    (below) the rounded [x]. *)
Lemma rnd_le_multiple x (n : Z) :
  x <= IZR n * pow2 (ulp_exp x) → rnd x <= IZR n * pow2 (ulp_exp x).
Proof.
  intros Hx. unfold rnd. pose proof (pow2_pos (ulp_exp x)) as He.
  apply Rmult_le_compat_r; [lra|]. apply IZR_le.
  rewrite <- (round_half_even_IZR n). apply round_half_even_mono.
  pose proof (pow2_pos (- ulp_exp x)) as He'.
  apply (Rmult_le_reg_r (pow2 (ulp_exp x))); [done|].
  by rewrite scaled_cancel.
Qed.

Lemma rnd_ge_multiple x (n : Z) :
  IZR n * pow2 (ulp_exp x) <= x → IZR n * pow2 (ulp_exp x) <= rnd x.
Proof.
  intros Hx. unfold rnd. pose proof (pow2_pos (ulp_exp x)) as He.
  apply Rmult_le_compat_r; [lra|]. apply IZR_le.
  rewrite <- (round_half_even_IZR n) at 1. apply round_half_even_mono.
  apply (Rmult_le_reg_r (pow2 (ulp_exp x))); [done|].
  by rewrite scaled_cancel.
Qed.

Lemma ilog2_mono x y :
  0 < x <= y →
  (Zfloor (ln (Rabs x) / ln 2) ≤ Zfloor (ln (Rabs y) / ln 2))%Z.
Proof.
  intros Hxy. apply Zfloor_le. pose proof ln2_pos.
  rewrite !Rabs_pos_eq by lra.
  apply Rmult_le_compat_r; [left; by apply Rinv_0_lt_compat|].
  destruct (proj2 Hxy) as [Hlt| ->]; [left; apply ln_increasing; lra|lra].
Qed.

(** A power of two is a multiple of every last place below it. *)
Lemma pow2_multiple (k e : Z) : (e ≤ k)%Z → pow2 k = IZR (2 ^ (k - e)) * pow2 e.
Proof.
  intros Hek. rewrite <- pow2_Z by lia. rewrite <- pow2_add. f_equal. lia.
Qed.

Lemma rnd_mono x y : 0 <= x <= y → rnd x <= rnd y.
Proof.
  intros [Hx Hxy].
  destruct (Req_dec_T x 0) as [->|Hx0].
  { rewrite rnd_0. apply rnd_nonneg. lra. }
  assert (0 < x) as Hxpos by lra.
  assert (ilog2 x ≤ ilog2 y)%Z as Hk by (apply ilog2_mono; lra).
  destruct (Z.eq_dec (ulp_exp x) (ulp_exp y)) as [He|He].
  - unfold rnd. rewrite He. pose proof (pow2_pos (ulp_exp y)).
    pose proof (pow2_pos (- ulp_exp y)).
    apply Rmult_le_compat_r; [lra|]. apply IZR_le, round_half_even_mono.
    apply Rmult_le_compat_r; lra.
  - (* a power of two lies between [x] and [y] *)
    assert (ulp_exp x ≤ ilog2 y ∧ ulp_exp y = ilog2 y - 52 ∧ ilog2 x < ilog2 y)%Z
      as (Hex & Hey & Hkk).
    { unfold ulp_exp in *. revert Hk He. generalize (ilog2 x) (ilog2 y).
      intros kx ky Hk He.
      destruct (Z.max_spec (-1074) (kx - 52)) as [[? Hmx]|[? Hmx]],
        (Z.max_spec (-1074) (ky - 52)) as [[? Hmy]|[? Hmy]];
        rewrite Hmx, Hmy in *; lia. }
    destruct (binade x Hx0) as [_ Hxhi].
    destruct (binade y ltac:(lra)) as [Hylo _].
    pose proof (Rabs_pos_eq x Hx) as Hax.
    pose proof (Rabs_pos_eq y ltac:(lra)) as Hay.
    assert (pow2 (ilog2 x + 1) <= pow2 (ilog2 y)) as Hpk by (apply pow2_le; lia).
    apply (Rle_trans _ (pow2 (ilog2 y))).
    + rewrite (pow2_multiple (ilog2 y) (ulp_exp x)) by done.
      apply rnd_le_multiple.
      rewrite <- pow2_multiple by done. lra.
    + rewrite (pow2_multiple (ilog2 y) (ulp_exp y)) by lia.
      apply rnd_ge_multiple. rewrite <- pow2_multiple by lia. lra.
Qed.

Lemma ilog2_unique v (k : Z) : pow2 k <= v < pow2 (k + 1) → ilog2 v = k.
Proof.
  intros [Hlo Hhi]. pose proof (pow2_pos k) as Hk. pose proof ln2_pos as Hln.
  rewrite Rabs_pos_eq by lra. apply Zfloor_eq.
  rewrite pow2_exp in Hlo. rewrite pow2_exp, plus_IZR in Hhi.
  assert (IZR k * ln 2 <= ln v) as H1.
  { rewrite <- (ln_exp (IZR k * ln 2)).
    destruct Hlo as [Hlo|Hlo]; [left; apply ln_increasing; [apply exp_pos|done]
                               |right; by rewrite Hlo]. }
  assert (ln v < (IZR k + 1) * ln 2) as H2.
  { rewrite <- (ln_exp ((IZR k + 1) * ln 2)).
    pose proof (exp_pos (IZR k * ln 2)). apply ln_increasing; lra. }
  split.
  - apply (Rmult_le_reg_r (ln 2)); [done|].
    unfold Rdiv. rewrite Rmult_assoc, Rinv_l, Rmult_1_r by lra. done.
  - apply (Rmult_lt_reg_r (ln 2)); [done|].
    unfold Rdiv. rewrite Rmult_assoc, Rinv_l, Rmult_1_r by lra. done.
Qed.

Lemma rnd_fixed v (n : Z) : v = IZR n * pow2 (ulp_exp v) → rnd v = v.
Proof.
  intros Hv. unfold rnd.
  replace (v * pow2 (- ulp_exp v)) with (IZR n).
  - by rewrite round_half_even_IZR.
  - rewrite Hv at 1. rewrite pow2_opp. pose proof (pow2_pos (ulp_exp v)).
    field. lra.
Qed.

(** A rounded number is a float64: rounding it again changes nothing. *)
Lemma rnd_idem x : 0 <= x → rnd (rnd x) = rnd x.
Proof.
  intros Hx.
  destruct (Req_dec_T x 0) as [->|Hx0]; [by rewrite !rnd_0|].
  pose proof (Rabs_pos_eq x Hx) as Hax.
  destruct (binade x Hx0) as [Hlo Hhi].
  pose proof (rnd_nonneg x Hx) as Hv.
  destruct (Req_dec_T (rnd x) 0) as [Hv0|Hv0]; [by rewrite Hv0, rnd_0|].
  destruct (Z_le_gt_dec (-1074) (ilog2 x - 52)) as [Hnorm|Hsub].
  - (* normal range *)
    assert (ulp_exp x = ilog2 x - 52)%Z as He by (unfold ulp_exp; lia).
    assert (pow2 (ilog2 x) <= rnd x) as Hvlo.
    { rewrite (pow2_multiple (ilog2 x) (ulp_exp x)) by lia.
      apply rnd_ge_multiple. rewrite <- pow2_multiple by lia. lra. }
    assert (rnd x <= pow2 (ilog2 x + 1)) as Hvhi.
    { rewrite (pow2_multiple (ilog2 x + 1) (ulp_exp x)) by lia.
      apply rnd_le_multiple. rewrite <- pow2_multiple by lia. lra. }
    destruct Hvhi as [Hvhi|Hvhi].
    + apply (rnd_fixed _ (round_half_even (x * pow2 (- ulp_exp x)))).
      assert (ulp_exp (rnd x) = ulp_exp x) as ->; [|done].
      unfold ulp_exp at 1. rewrite (ilog2_unique (rnd x) (ilog2 x)) by done.
      lia.
    + apply (rnd_fixed _ (2 ^ 52)).
      assert (ulp_exp (rnd x) = ilog2 x + 1 - 52)%Z as ->.
      { unfold ulp_exp. rewrite (ilog2_unique (rnd x) (ilog2 x + 1)); [lia|].
        rewrite Hvhi. split; [lra|].
        replace (ilog2 x + 1 + 1)%Z with ((ilog2 x + 1) + 1)%Z by lia.
        rewrite (pow2_add (ilog2 x + 1) 1).
        replace (pow2 1) with 2 by (unfold pow2; simpl; lra).
        pose proof (pow2_pos (ilog2 x + 1)). lra. }
      rewrite Hvhi. rewrite (pow2_multiple (ilog2 x + 1) (ilog2 x + 1 - 52)) by lia.
      by replace (ilog2 x + 1 - (ilog2 x + 1 - 52))%Z with 52%Z by lia.
  - (* subnormal range *)
    assert (ulp_exp x = -1074)%Z as He by (unfold ulp_exp; lia).
    assert (pow2 (ilog2 x + 1) <= pow2 (-1022)) as Hp by (apply pow2_le; lia).
    assert (rnd x <= pow2 (-1022)) as Hvhi.
    { rewrite (pow2_multiple (-1022) (ulp_exp x)) by lia.
      apply rnd_le_multiple. rewrite <- pow2_multiple by lia. lra. }
    apply (rnd_fixed _ (round_half_even (x * pow2 (- ulp_exp x)))).
    assert (ulp_exp (rnd x) = ulp_exp x) as ->; [|done].
    rewrite He. destruct Hvhi as [Hvhi|Hvhi].
    + apply ulp_exp_subnormal; [done|]. by rewrite Rabs_pos_eq.
    + unfold ulp_exp. rewrite (ilog2_unique (rnd x) (-1022)); [lia|].
      rewrite Hvhi. split; [lra|].
      rewrite (pow2_add (-1022) 1).
      replace (pow2 1) with 2 by (unfold pow2; simpl; lra).
      pose proof (pow2_pos (-1022)). lra.
Qed.

(** *** Exponentials *)

(** [2^1024], the first power of two that is not a finite float64. *)
Lemma rnd_pow2_1024 : rnd (pow2 1024) = pow2 1024.
Proof.
  apply (rnd_fixed _ (2 ^ 52)).
  assert (ulp_exp (pow2 1024) = 1024 - 52)%Z as ->.
  { unfold ulp_exp. rewrite (ilog2_unique (pow2 1024) 1024); [lia|].
    split; [lra|]. rewrite (pow2_add 1024 1).
    replace (pow2 1) with 2 by (unfold pow2; simpl; lra).
    pose proof (pow2_pos 1024). lra. }
  by rewrite (pow2_multiple 1024 (1024 - 52)) by lia.
Qed.

(** [np.exp] overflows from 710 on (in fact from about 709.78 on). *)
Lemma np_exp_overflow x : 710 <= x → np_exp x = PInf.
Proof.
  intros Hx. apply fl_PInf. pose proof (exp_710_lower x Hx) as Hexp.
  pose proof (pow2_pos 1024) as Hpos.
  pose proof (rnd_mono (pow2 1024) (exp x) ltac:(lra)) as Hm.
  rewrite rnd_pow2_1024 in Hm. pose proof max_float_pow2. lra.
Qed.


(** The exponential of a moderate score is a positive normal number. *)
Lemma np_exp_normal x :
  Rabs x <= 700 →
  ∃ e, np_exp x = Fin e ∧ rnd e = e ∧ pow2 (-1014) <= e <= pow2 1014.
Proof.
  intros Hx. apply Rabs_bound in Hx.
  pose proof (exp_700_upper x ltac:(lra)) as Hup.
  pose proof (exp_700_lower x ltac:(lra)) as Hlow.
  assert (pow2 (-1022) <= exp x) as Hn.
  { apply (Rle_trans _ (pow2 (-1013))); [apply pow2_le; lia|done]. }
  destruct (rnd_rel_pos _ Hn) as [Hlo Hhi]. rewrite f64_eps_value in Hlo, Hhi.
  assert (pow2 (-1013) = 2 * pow2 (-1014)) as Hm.
  { replace 2 with (pow2 1) by (unfold pow2; simpl; lra).
    rewrite <- pow2_add. f_equal. }
  assert (pow2 1014 = 2 * pow2 1013) as Hp.
  { replace 2 with (pow2 1) by (unfold pow2; simpl; lra).
    rewrite <- pow2_add. f_equal. }
  pose proof (pow2_pos (-1014)). pose proof (pow2_pos 1013).
  pose proof max_float_1014.
  pose proof (exp_pos x).
  exists (rnd (exp x)). split; [|split; [apply rnd_idem; lra|split; nra]].
  apply fl_Fin.
  pose proof (rnd_nonneg (exp x) ltac:(lra)). pose proof max_float_pos.
  split; nra.
Qed.

(** *** The rounding error of a normalised column *)

Lemma f64_eps_small (j : nat) : (j ≤ 1000)%nat → 0 <= INR j * f64_eps <= 1.2e-13.
Proof.
  intros Hj. apply le_INR in Hj. pose proof (pos_INR j) as Hpos.
  replace (INR 1000) with 1000 in Hj
    by (rewrite INR_IZR_INZ; change (Z.of_nat 1000) with 1000%Z; lra).
  rewrite f64_eps_value. lra.
Qed.

Lemma f64_eps_bounds : 0 < f64_eps <= 1.2e-16.
Proof. rewrite f64_eps_value. lra. Qed.

Lemma rounded_sum_step (B x r w u : R) :
  0 < B → 0 <= w <= 1.2e-13 → 0 < u <= 1.2e-16 →
  B * (1 - w) <= x <= B * (1 + 2 * w) →
  x * (1 - u) <= r <= x * (1 + u) →
  B * (1 - (w + u)) <= r <= B * (1 + 2 * (w + u)).
Proof.
  intros HB Hw Hu Hx Hr.
  assert (0 <= B * w) by nra. assert (0 <= B * u) by nra.
  assert (0 <= B * w * u) by nra.
  assert (B * w * u <= B * u * 1.2e-13) by nra.
  split.
  - apply (Rle_trans _ (B * (1 - w) * (1 - u))); [nra|].
    apply (Rle_trans _ (x * (1 - u))); [|lra].
    apply Rmult_le_compat_r; lra.
  - apply (Rle_trans _ (B * (1 + 2 * w) * (1 + u))); [|nra].
    apply (Rle_trans _ (x * (1 + u))); [lra|].
    apply Rmult_le_compat_r; lra.
Qed.

Lemma INR_le_const (j n : nat) (c : R) : (j ≤ n)%nat → INR n = c → INR j <= c.
Proof. intros Hj <-. by apply le_INR. Qed.

Lemma INR_1000 : INR 1000 = 1000.
Proof. rewrite INR_IZR_INZ. change (Z.of_nat 1000) with 1000%Z. lra. Qed.

Lemma f64_add_step (a A e : R) (j : nat) :
  (S (S j) ≤ 1000)%nat →
  pow2 (-1014) <= e <= pow2 1014 →
  pow2 (-1014) <= A <= INR (S j) * pow2 1014 →
  A * (1 - INR j * f64_eps) <= a <= A * (1 + 2 * (INR j * f64_eps)) →
  f64_add (Fin a) (Fin e) = Fin (rnd (a + e)) ∧
  (A + e) * (1 - INR (S j) * f64_eps) <= rnd (a + e)
    <= (A + e) * (1 + 2 * (INR (S j) * f64_eps)).
Proof.
  intros Hj He HA Ha.
  pose proof (f64_eps_small j ltac:(lia)) as Hw.
  pose proof f64_eps_bounds as Hu.
  pose proof (pow2_pos (-1014)) as Hlo. pose proof (pow2_pos 1014) as Hhi.
  assert (pow2 (-1022) <= pow2 (-1014)) as Hnorm by (apply pow2_le; lia).
  pose proof (INR_le_const (S (S j)) 1000 1000 Hj INR_1000) as HSj.
  rewrite !S_INR in HSj. rewrite S_INR in HA. rewrite S_INR.
  assert (0 <= A * (INR j * f64_eps)) as HAw by nra.
  assert (0 <= e * (INR j * f64_eps)) as Hew by nra.
  assert (pow2 (-1022) <= a + e) as Hx by nra.
  pose proof (rnd_rel_pos _ Hx) as Hr.
  assert ((A + e) * (1 - (INR j * f64_eps + f64_eps)) <= rnd (a + e)
            <= (A + e) * (1 + 2 * (INR j * f64_eps + f64_eps))) as Hb.
  { apply (rounded_sum_step (A + e) (a + e)); [lra|done|done|nra|done]. }
  split.
  - simpl. apply fl_Fin.
    pose proof max_float_1014 as Hmax.
    pose proof (pow2_pos (-1022)).
    assert (0 <= rnd (a + e)) by (apply rnd_nonneg; lra).
    split; [pose proof max_float_pos; lra|].
    apply (Rle_trans _ ((A + e) * (1 + 2 * (INR j * f64_eps + f64_eps))));
      [apply Hb|].
    apply (Rle_trans _ (1000 * pow2 1014 * (1 + 2 * (INR j * f64_eps + f64_eps))));
      [apply Rmult_le_compat_r; nra|]. nra.
  - replace ((INR j + 1) * f64_eps) with (INR j * f64_eps + f64_eps) by ring.
    exact Hb.
Qed.

Lemma f64_sum_loop (l : list R) : ∀ (a A : R) (j : nat),
  Forall (λ e, pow2 (-1014) <= e <= pow2 1014) l →
  (S j + length l ≤ 1000)%nat →
  pow2 (-1014) <= A <= INR (S j) * pow2 1014 →
  A * (1 - INR j * f64_eps) <= a <= A * (1 + 2 * (INR j * f64_eps)) →
  ∃ r, foldl f64_add (Fin a) (Fin <$> l) = Fin r ∧
       (A + sum_list l) * (1 - INR (j + length l) * f64_eps) <= r
         <= (A + sum_list l) * (1 + 2 * (INR (j + length l) * f64_eps)).
Proof.
  induction l as [|e l IH]; intros a A j Hl Hlen HA Ha.
  - exists a. split; [done|]. simpl. rewrite Nat.add_0_r, Rplus_0_r. done.
  - apply Forall_cons in Hl as [He Hl]. simpl in Hlen.
    destruct (f64_add_step a A e j) as [Hadd Hb]; [lia|done..|].
    cbn [fmap list_fmap foldl]. rewrite Hadd.
    destruct (IH (rnd (a + e)) (A + e) (S j)) as (r & Hr & Hrb);
      [done|lia| |done|].
    { pose proof (pow2_pos (-1014)). rewrite (S_INR (S j)). lra. }
    exists r. split; [done|].
    simpl. replace (j + S (length l))%nat with (S j + length l)%nat by lia.
    by rewrite <- Rplus_assoc.
Qed.

(** The float sum of positive float64 numbers is at least each of them. *)
Lemma f64_sum_dominates (l : list R) : ∀ (a A r : R) (j : nat),
  Forall (λ e, pow2 (-1014) <= e <= pow2 1014) l →
  Forall (λ e, rnd e = e) l → rnd a = a →
  (S j + length l ≤ 1000)%nat →
  pow2 (-1014) <= A <= INR (S j) * pow2 1014 →
  A * (1 - INR j * f64_eps) <= a <= A * (1 + 2 * (INR j * f64_eps)) →
  foldl f64_add (Fin a) (Fin <$> l) = Fin r →
  a <= r ∧ Forall (λ e, e <= r) l.
Proof.
  induction l as [|e l IH]; intros a A r j Hl Hfix Ha Hlen HA Hab Hr.
  - injection Hr as <-. split; [lra|constructor].
  - apply Forall_cons in Hl as [He Hl]. apply Forall_cons in Hfix as [Hfe Hfix].
    simpl in Hlen.
    destruct (f64_add_step a A e j) as [Hadd Hb]; [lia|done..|].
    cbn [fmap list_fmap foldl] in Hr. rewrite Hadd in Hr.
    pose proof (pow2_pos (-1014)) as Hlo.
    pose proof (f64_eps_small j ltac:(lia)) as Hw.
    assert (0 <= a) as Hapos by nra.
    destruct (IH (rnd (a + e)) (A + e) r (S j)) as [Hle Hall];
      [done|done|apply rnd_idem; lra|lia| |done|done|].
    { rewrite (S_INR (S j)). lra. }
    pose proof (rnd_mono a (a + e) ltac:(lra)) as Hma.
    pose proof (rnd_mono e (a + e) ltac:(lra)) as Hme.
    rewrite Ha in Hma. rewrite Hfe in Hme.
    split; [lra|]. constructor; [lra|done].
Qed.

Lemma sum_list_lower (l : list R) (m : R) :
  Forall (λ e, m <= e) l → INR (length l) * m <= sum_list l.
Proof.
  induction 1 as [|e l He _ IH]; [simpl; lra|].
  change (length (e :: l)) with (S (length l)). rewrite S_INR. simpl. lra.
Qed.

(** The float sum of at most 1000 positive normal numbers. *)
Lemma f64_sum_bounds (es : list R) :
  es ≠ [] → (length es ≤ 1000)%nat →
  Forall (λ e, pow2 (-1014) <= e <= pow2 1014) es →
  ∃ S', ar_sum (Fin <$> es) = Fin S' ∧
        0 < sum_list es ∧
        sum_list es * (1 - 1.2e-13) <= S' <= sum_list es * (1 + 2.4e-13).
Proof.
  intros Hne Hlen Hes. destruct es as [|e0 l]; [done|].
  apply Forall_cons in Hes as [He0 Hl]. simpl in Hlen.
  destruct (f64_sum_loop l e0 e0 0) as (r & Hr & Hrb); [done|lia|..].
  { change (INR 1) with 1. lra. }
  { change (INR 0) with 0. lra. }
  exists r. split; [done|].
  pose proof (pow2_pos (-1014)) as Hlo.
  assert (0 <= sum_list l) as Hpos.
  { pose proof (sum_list_lower l 0) as Hs. rewrite Rmult_0_r in Hs.
    apply Hs. eapply Forall_impl; [done|]. simpl. intros. lra. }
  rewrite Nat.add_0_l in Hrb.
  change (sum_list (e0 :: l)) with (e0 + sum_list l).
  pose proof (f64_eps_small (length l) ltac:(lia)) as Hw.
  split; [lra|]. nra.
Qed.

Lemma f64_sum_above (es : list R) (r : R) :
  (length es ≤ 1000)%nat →
  Forall (λ e, pow2 (-1014) <= e <= pow2 1014) es →
  Forall (λ e, rnd e = e) es →
  ar_sum (Fin <$> es) = Fin r →
  Forall (λ e, e <= r) es.
Proof.
  intros Hlen Hes Hfix Hr. destruct es as [|e0 l]; [constructor|].
  apply Forall_cons in Hes as [He0 Hl]. apply Forall_cons in Hfix as [Hf0 Hfix].
  simpl in Hlen.
  destruct (f64_sum_dominates l e0 e0 r 0) as [H0 Hall]; [done..|lia| | |done|].
  { change (INR 1) with 1. lra. }
  { change (INR 0) with 0. lra. }
  by constructor.
Qed.

Lemma Rdiv_nonneg a b : 0 <= a → 0 < b → 0 <= a / b.
Proof. intros. by apply Rle_mult_inv_pos. Qed.

Lemma sum_list_cons (x : R) (l : list R) : sum_list (x :: l) = x + sum_list l.
Proof. reflexivity. Qed.

Lemma sum_list_nonneg (l : list R) : Forall (λ e, 0 <= e) l → 0 <= sum_list l.
Proof. induction 1 as [|e l He _ IH]; simpl; lra. Qed.

Lemma elem_le_sum (l : list R) (e : R) :
  Forall (λ e, 0 <= e) l → e ∈ l → e <= sum_list l.
Proof.
  intros Hl [l1 [l2 ->]]%list_elem_of_split.
  apply Forall_app in Hl as [H1 [_ H2]%Forall_cons].
  pose proof (sum_list_nonneg l1 H1). pose proof (sum_list_nonneg l2 H2).
  induction l1 as [|a l1 IH]; simpl in *; [lra|].
  apply Forall_cons in H1 as [Ha H1].
  pose proof (sum_list_nonneg l1 H1). specialize (IH H1). lra.
Qed.

Lemma sum_list_quotients (l : list R) (d : R) :
  sum_list ((λ e, e / d) <$> l) = sum_list l / d.
Proof.
  induction l as [|e l IH]; csimpl; [unfold Rdiv; lra|].
  rewrite IH. unfold Rdiv. lra.
Qed.

(** Rounding every quotient moves their sum by a relative [f64_eps] and
    one [f64_eta] per term at most. *)
Lemma rounded_quotients (l : list R) (d : R) :
  0 < d → Forall (λ e, 0 <= e) l →
  Rabs (sum_list ((λ e, rnd (e / d)) <$> l) - sum_list l / d)
    <= f64_eps * (sum_list l / d) + INR (length l) * f64_eta.
Proof.
  intros Hd. induction 1 as [|e l He Hl IH].
  - simpl. unfold Rdiv. rewrite Rmult_0_l, Rminus_diag, Rabs_R0. lra.
  - change (length (e :: l)) with (S (length l)).
    rewrite S_INR, fmap_cons, !sum_list_cons.
    pose proof (rnd_abs (e / d)) as Herr.
    assert (0 <= e / d) as Hq by (apply Rdiv_nonneg; lra).
    rewrite (Rabs_pos_eq (e / d)) in Herr by done.
    apply Rabs_bound in Herr. apply Rabs_bound in IH.
    replace ((e + sum_list l) / d) with (e / d + sum_list l / d)
      by (unfold Rdiv; lra).
    apply Rabs_le. lra.
Qed.

Lemma np_exp_column (xs : list R) :
  Forall (λ x, Rabs x <= 700) xs →
  ∃ es, np_exp <$> xs = Fin <$> es ∧ length es = length xs ∧
        Forall (λ e, rnd e = e) es ∧
        Forall (λ e, pow2 (-1014) <= e <= pow2 1014) es.
Proof.
  induction 1 as [|x xs Hx _ (es & Heq & Hlen & Hfix & Hes)].
  - by exists [].
  - destruct (np_exp_normal x Hx) as (e & He & Hfe & Hb).
    exists (e :: es). csimpl. rewrite He, Heq, Hlen.
    by repeat split; [constructor..].
Qed.

Lemma f64_div_quotient (e d T : R) :
  0 < T → T * (1 - 1.2e-13) <= d → 0 <= e <= T →
  f64_div (Fin e) (Fin d) = Fin (rnd (e / d)) ∧ 0 <= rnd (e / d).
Proof.
  intros HT Hd He. assert (0 < d) as Hdpos by nra.
  assert (0 <= e / d <= 2) as Hq.
  { split; [apply Rdiv_nonneg; lra|].
    apply (Rmult_le_reg_r d); [done|].
    unfold Rdiv. rewrite Rmult_assoc, Rinv_l by lra. nra. }
  pose proof (rnd_nonneg (e / d) ltac:(lra)) as Hnn.
  split; [|done]. unfold f64_div.
  destruct (Req_dec_T d 0); [lra|]. apply fl_Fin.
  pose proof (rnd_abs (e / d)) as Herr.
  rewrite (Rabs_pos_eq (e / d)) in Herr by lra. apply Rabs_bound in Herr.
  pose proof f64_eps_bounds. pose proof f64_eta_le_eps.
  pose proof max_float_lower.
  assert (4 <= pow2 1023).
  { replace 4 with (pow2 2) by (unfold pow2; simpl; lra). apply pow2_le. lia. }
  split; nra.
Qed.

(** Normalising the exponentials of at most 1000 scores between -700 and
    700: every quotient is a float64 number between 0 and 1, and their sum
    is within [1e-9] of 1. *)
Lemma normalised_column (xs : list R) :
  xs ≠ [] → (length xs ≤ 1000)%nat → Forall (λ x, Rabs x <= 700) xs →
  ∃ ps,
    (λ e, f64_div e (ar_sum (np_exp <$> xs))) <$> (np_exp <$> xs) = Fin <$> ps ∧
    Forall (λ p, 0 <= p <= 1) ps ∧
    Rabs (sum_list ps - 1) <= 1e-9.
Proof.
  intros Hne Hlen Hxs.
  destruct (np_exp_column xs Hxs) as (es & -> & Hes_len & Hfix & Hes).
  assert (es ≠ []) as Hes_ne by (intros ->; by destruct xs).
  destruct (f64_sum_bounds es Hes_ne ltac:(lia) Hes) as (d & Hsum & HT & Hd).
  pose proof (f64_sum_above es d ltac:(lia) Hes Hfix Hsum) as Habove.
  rewrite Hsum.
  pose proof (pow2_pos (-1014)) as Hlo.
  assert (Forall (λ e, 0 <= e) es) as Hpos
    by (eapply Forall_impl; [exact Hes|]; simpl; intros; lra).
  assert (0 < d) as Hdpos by nra.
  exists ((λ e, rnd (e / d)) <$> es). split; [|split].
  - rewrite <- !list_fmap_compose. apply list_fmap_ext.
    intros i e Hi. simpl.
    apply (f64_div_quotient e d (sum_list es)); [done|lra|].
    split; [by eapply (proj1 (Forall_lookup _ _) Hpos)|].
    apply elem_le_sum; [done|]. by eapply list_elem_of_lookup_2.
  - apply Forall_fmap, Forall_forall. intros e He. simpl.
    pose proof (proj1 (Forall_forall _ _) Hpos e He) as He0.
    pose proof (proj1 (Forall_forall _ _) Habove e He) as Hed.
    assert (0 <= e / d) as Hq0 by (by apply Rdiv_nonneg).
    split; [by apply rnd_nonneg|].
    rewrite <- rnd_1. apply rnd_mono. split; [done|].
    apply (Rmult_le_reg_r d); [done|].
    unfold Rdiv. rewrite Rmult_assoc, Rinv_l by lra. lra.
  - pose proof (rounded_quotients es d Hdpos Hpos) as Herr.
    apply Rabs_bound in Herr.
    pose proof f64_eps_bounds as Hu. pose proof f64_eta_le_eps as Heta.
    pose proof (f64_eps_small (length es) ltac:(lia)) as Hn.
    assert (0 <= INR (length es) * f64_eta <= 1.2e-13) as Hneta.
    { pose proof (pos_INR (length es)). pose proof (pow2_pos (-1075)).
      unfold f64_eta in *. split; nra. }
    assert (sum_list es / d * d = sum_list es) as Hr
      by (unfold Rdiv; rewrite Rmult_assoc, Rinv_l; lra).
    revert Herr Hr Hneta. generalize (INR (length es) * f64_eta).
    generalize (sum_list es / d).
    generalize (sum_list ((λ e : R, rnd (e / d)) <$> es)).
    intros sp r neta Herr Hr Hneta.
    assert (1 - 2.4e-13 <= r <= 1 + 2.4e-13) as Hrb by (split; nra).
    apply Rabs_le. nra.
Qed.

(** *** Overflow *)

Lemma fl_nonneg x : 0 <= x → nonneg_or_inf (fl x).
Proof.
  intros Hx. pose proof (rnd_nonneg x Hx). pose proof max_float_pos.
  unfold fl. destruct (Rlt_dec _ _); [done|].
  destruct (Rlt_dec _ _); [lra|done].
Qed.

Lemma np_exp_nonneg x : nonneg_or_inf (np_exp x).
Proof. apply fl_nonneg. left. apply exp_pos. Qed.

Lemma f64_add_nonneg a b :
  nonneg_or_inf a → nonneg_or_inf b → nonneg_or_inf (f64_add a b).
Proof.
  destruct a as [x| | |], b as [y| | |]; try done.
  intros Hx Hy. apply fl_nonneg. simpl in *. lra.
Qed.

Lemma f64_add_inf_l b : nonneg_or_inf b → f64_add PInf b = PInf.
Proof. by destruct b. Qed.

Lemma f64_add_inf_r a : nonneg_or_inf a → f64_add a PInf = PInf.
Proof. by destruct a. Qed.

Lemma foldl_add_inf (l : list npfloat) :
  Forall nonneg_or_inf l → foldl f64_add PInf l = PInf.
Proof.
  induction 1 as [|b l Hb _ IH]; [done|].
  cbn [foldl]. by rewrite f64_add_inf_l.
Qed.

Lemma foldl_add_nonneg (l : list npfloat) : ∀ a,
  nonneg_or_inf a → Forall nonneg_or_inf l → nonneg_or_inf (foldl f64_add a l).
Proof.
  induction l as [|b l IH]; intros a Ha Hl; [done|].
  apply Forall_cons in Hl as [Hb Hl]. cbn [foldl].
  apply IH; [by apply f64_add_nonneg|done].
Qed.

(** The float sum of exponentials of which one has overflowed is [inf]. *)
Lemma f64_sum_inf (l : list npfloat) :
  Forall nonneg_or_inf l → PInf ∈ l → ar_sum l = PInf.
Proof.
  intros Hl [l1 [l2 ->]]%list_elem_of_split.
  apply Forall_app in Hl as [H1 [_ H2]%Forall_cons].
  destruct l1 as [|a l1]; simpl.
  - by apply foldl_add_inf.
  - apply Forall_cons in H1 as [Ha H1].
    change (foldl f64_add a (l1 ++ PInf :: l2) = PInf).
    rewrite foldl_app. cbn [foldl].
    rewrite f64_add_inf_r by (by apply foldl_add_nonneg).
    by apply foldl_add_inf.
Qed.
End binary64_facts.

(** ** Posterior-predictive aggregation *)

Section tabulate.
Context {A B : Type}.

Lemma lookup_tab (f : nat → A) n i : i < n → (f <$> seq 0 n) !! i = Some (f i).
Proof. intros Hi. by rewrite list_lookup_fmap, lookup_seq_lt. Qed.

Lemma tab_ext (f h : nat → A) n :
  (∀ i, i < n → f i = h i) → f <$> seq 0 n = h <$> seq 0 n.
Proof.
  intros Hfh. apply list_eq. intros i. rewrite !list_lookup_fmap.
  destruct (decide (i < n)) as [Hi|Hi].
  - rewrite lookup_seq_lt by done. simpl. by rewrite Hfh.
  - by rewrite lookup_seq_ge by lia.
Qed.

Lemma imap_tab (h : nat → A → B) (f : nat → A) n :
  imap h (f <$> seq 0 n) = (λ i, h i (f i)) <$> seq 0 n.
Proof.
  apply list_eq. intros i. rewrite list_lookup_imap, !list_lookup_fmap.
  destruct (decide (i < n)) as [Hi|Hi].
  - by rewrite lookup_seq_lt by done.
  - by rewrite lookup_seq_ge by lia.
Qed.

Lemma replicate_tab n (x : A) : replicate n x = (λ _, x) <$> seq 0 n.
Proof.
  apply list_eq. intros i. destruct (decide (i < n)) as [Hi|Hi].
  - by rewrite lookup_replicate_2, lookup_tab.
  - rewrite (proj1 (lookup_replicate_None n x i)) by lia.
    by rewrite list_lookup_fmap, lookup_seq_ge by lia.
Qed.
End tabulate.

Section aggregate_facts.
Context {F : Type} `{Arith F}.
Variables (K M : nat) (V : matrix).
Hypothesis K_nonzero : K ≠ 0.
Hypothesis V_rows : length V = K * M.

Local Abbreviation lin_at s p c := (default 0%R (matvec V s !! (p * K + c))).

(** The sum over the classes of the exponentiated scores of point [p]. *)
Lemma sum_axis0_lookup (s : vec) p :
  p < M →
  sum_axis0 M (exp_matrix K M (matvec V s)) !! p =
    Some (ar_sum ((λ c, ar_exp (lin_at s p c)) <$> seq 0 K)).
Proof.
  intros Hp. unfold sum_axis0. rewrite lookup_tab by done. f_equal.
  unfold exp_matrix. rewrite <- list_fmap_compose. f_equal.
  apply tab_ext. intros c Hc. simpl. by rewrite lookup_tab.
Qed.

Lemma predict_slice_entry (s : vec) c p :
  c < K → p < M →
  predict_slice K M V s !! c ≫= (.!! p) =
    Some (ar_div (ar_exp (lin_at s p c))
            (ar_sum ((λ c', ar_exp (lin_at s p c')) <$> seq 0 K))).
Proof.
  intros Hc Hp. unfold predict_slice, normalize.
  pose proof (sum_axis0_lookup s p Hp) as Hsum.
  revert Hsum. generalize (sum_axis0 M (exp_matrix K M (matvec V s))).
  intros colsum Hsum.
  rewrite list_lookup_fmap. unfold exp_matrix.
  rewrite lookup_tab by done. simpl.
  rewrite lookup_zip_with, lookup_tab by done. simpl.
  by rewrite Hsum.
Qed.

Lemma predict_slice_cell (s : vec) c p :
  c < K → p < M →
  predict_slice K M V s !! c ≫= (.!! p) = Some (cell (predict_slice K M V s) c p).
Proof.
  intros Hc Hp. unfold cell. by rewrite predict_slice_entry.
Qed.

(** One iteration stores the slice of the current sample. *)
Lemma set_slice_tensor (done : list (list (list F))) (pend : nat) (sl : list (list F)) :
  (∀ c p, c < K → p < M → sl !! c ≫= (.!! p) = Some (cell sl c p)) →
  set_slice (length done) sl (tensor_of_slices K M done (S pend)) =
    tensor_of_slices K M (done ++ [sl]) pend.
Proof.
  intros Hsl. unfold set_slice, tensor_of_slices. rewrite imap_tab.
  apply tab_ext. intros c Hc. rewrite imap_tab.
  apply tab_ext. intros p Hp. rewrite Hsl by done.
  rewrite fmap_app. simpl. rewrite <- app_assoc. simpl.
  rewrite insert_app_r_alt by (rewrite length_fmap; lia).
  by rewrite length_fmap, Nat.sub_diag.
Qed.

Variables (sampMat : list vec) (burnIn : nat).

Lemma aggregate_step_Ok (done : list (list (list F))) (pend : nat) (s : vec) :
  sampMat !! (burnIn + length done) = Some s →
  Forall (λ row, length row = length s) V →
  aggregate_step K M V sampMat burnIn
      (Ok (tensor_of_slices K M done (S pend))) (burnIn + length done) =
    Ok (tensor_of_slices K M (done ++ [predict_slice K M V s]) pend).
Proof.
  intros Hs Hrows. unfold aggregate_step, column, np_dot, exp_scores.
  cbn. rewrite Hs. cbn. rewrite decide_True by done. cbn.
  rewrite decide_True
    by (split; [done | unfold matvec; by rewrite length_fmap]).
  cbn. f_equal.
  replace (burnIn + length done - burnIn) with (length done) by lia.
  apply set_slice_tensor. intros c p. apply predict_slice_cell.
Qed.

Lemma aggregate_loop (pend : nat) : ∀ (done : list (list (list F))),
  burnIn + length done + pend ≤ length sampMat →
  (∀ i s, burnIn + length done ≤ i < burnIn + length done + pend →
          sampMat !! i = Some s → Forall (λ row, length row = length s) V) →
  foldl (aggregate_step K M V sampMat burnIn)
      (Ok (tensor_of_slices K M done pend))
      (seq (burnIn + length done) pend) =
    Ok (tensor_of_slices K M
          (done ++ (predict_slice K M V
                      <$> take pend (drop (burnIn + length done) sampMat))) 0).
Proof.
  induction pend as [|pend IH]; intros done Hlen Hwf.
  - simpl. by rewrite app_nil_r.
  - destruct (lookup_lt_is_Some_2 sampMat (burnIn + length done))
      as [s Hs]; [lia|].
    cbn [seq foldl]. rewrite (aggregate_step_Ok done pend s) by (eauto with lia).
    specialize (IH (done ++ [predict_slice K M V s])).
    rewrite length_app in IH. simpl in IH.
    replace (S (burnIn + length done)) with (burnIn + (length done + 1)) by lia.
    rewrite IH by (try lia; intros i s' Hi; apply Hwf; lia).
    do 2 f_equal. rewrite <- app_assoc. f_equal.
    rewrite (drop_S _ _ _ Hs).
    replace (burnIn + (length done + 1)) with (S (burnIn + length done)) by lia.
    done.
Qed.

(** The loop in closed form. *)
Lemma aggregate_closed_form (NumSamples : nat) :
  burnIn ≤ NumSamples → NumSamples ≤ length sampMat →
  (∀ i s, burnIn ≤ i < NumSamples → sampMat !! i = Some s →
          Forall (λ row, length row = length s) V) →
  aggregate K M V sampMat NumSamples burnIn =
    Ok (tensor_of_slices K M
          (predict_slice K M V <$> take (NumSamples - burnIn) (drop burnIn sampMat))
          0).
Proof.
  intros Hb Hn Hwf. unfold aggregate, np_zeros3.
  rewrite decide_False by lia. cbn.
  pose proof (aggregate_loop (NumSamples - burnIn) []) as Hloop.
  simpl in Hloop. rewrite Nat.add_0_r in Hloop.
  rewrite <- Hloop; [|lia|intros i s Hi; apply Hwf; lia].
  f_equal. unfold tensor_of_slices. simpl.
  by rewrite !replicate_tab.
Qed.
End aggregate_facts.

Section class_sums.
Local Open Scope R_scope.



(** The class probabilities of one prediction point, for one sample: the
    exponentials of its scores, each divided by their sum. *)
Lemma predict_slice_column (K M : nat) (V : matrix) (s : vec) p :
  (p < M)%nat →
  (λ c, cell (predict_slice K M V s) c p) <$> seq 0 K =
    (λ e, f64_div e
            (ar_sum (np_exp <$> ((λ c, default 0 (matvec V s !! (p * K + c)%nat))
                                   <$> seq 0 K))))
      <$> (np_exp <$> ((λ c, default 0 (matvec V s !! (p * K + c)%nat))
                         <$> seq 0 K)).
Proof.
  intros Hp. rewrite <- !list_fmap_compose. apply tab_ext. intros c Hc.
  unfold cell. by rewrite predict_slice_entry.
Qed.

Lemma chain_matvec (a b c : R) : matvec chain_V [a; b; c] = [a; b; c].
Proof.
  unfold matvec, dot, chain_V, block_design, block_design_upto. simpl.
  repeat f_equal; lra.
Qed.

End class_sums.




(** C5 (amended).  When the burn-in equals the number of iterations, the
    loop returns, with no error, the empty tensor of shape
    [(classes, M, 0)]; when the burn-in exceeds it, the allocation of the
    tensor raises numpy's [ValueError] (negative dimension). *)
Theorem aggregate_no_retained_samples {F : Type} `{Arith F}
    (K M : nat) (V : matrix) (sampMat : list vec) (n extra : nat) :
  aggregate K M V sampMat n n = Ok (replicate K (replicate M [])) ∧
  aggregate K M V sampMat n (n + S extra) = Raise ValueError.
Proof.
  unfold aggregate, np_zeros3. split.
  - rewrite decide_False by lia. rewrite Nat.sub_diag. reflexivity.
  - rewrite decide_True by lia. reflexivity.
Qed.

(** With a burn-in equal to the number of iterations the range of the
    loop is empty. *)
Lemma aggregate_burnIn_all {F : Type} `{Arith F} (K M : nat) (V : matrix) (sampMat : list vec) (n : nat) :
  aggregate K M V sampMat n n = Ok (replicate K (replicate M [])).
Proof.
  unfold aggregate, np_zeros3. rewrite decide_False by lia.
  replace (n - n) with 0 by lia. reflexivity.
Qed.

(** C5 as stated fails: with 101 chain states and a burn-in of 101 the
    retained-sample count is zero and the loop returns an empty tensor. *)
Lemma aggregate_empty_tensor_returned :
  101 - 101 = 0 ∧
  aggregate 3 1 chain_V chain_sampMat 101 101 = Ok [[[]]; [[]]; [[]]] ∧
  ¬ raises (aggregate 3 1 chain_V chain_sampMat 101 101).
Proof.
  split; [reflexivity|].
  rewrite aggregate_burnIn_all. split; [reflexivity|]. by intros [].
Qed.

(** ** Summary statistics *)

#[global] Instance Rle_total : Total Rle.
Proof. intros x y. destruct (Rle_or_lt x y); [by left|right; lra]. Qed.

#[global] Instance Rle_antisymm : AntiSymm (=) Rle.
Proof. intros x y. apply Rle_antisym. Qed.

Section percentile_facts.
Local Open Scope R_scope.


Lemma sorted_nth_le (s : vec) (i j : nat) :
  StronglySorted Rle s → (i ≤ j)%nat → (j < length s)%nat →
  nth i s 0 <= nth j s 0.
Proof.
  intros Hs. revert i j.
  induction Hs as [|a s Hs IH Hall]; intros i j Hij Hj; simpl in *; [lia|].
  destruct i as [|i], j as [|j]; try lia.
  - lra.
  - apply (proj1 (Forall_nth _ _ _) Hall). lia.
  - apply IH; lia.
Qed.

Section interpolation.
Variable s : vec.
Hypothesis s_sorted : StronglySorted Rle s.
Hypothesis s_nonempty : s ≠ [].

Local Abbreviation n := (length s).

Lemma sorted_length_pos : (1 ≤ n)%nat.
Proof. destruct s; [done|simpl; lia]. Qed.

Lemma below_bound q : (q ≤ 100)%nat → ((q * (n - 1)) `div` 100 ≤ n - 1)%nat.
Proof.
  intros Hq. apply Nat.Div0.div_le_upper_bound.
  apply Nat.mul_le_mono_r. lia.
Qed.

Lemma weight_bounds (pos : nat) : 0 <= INR (pos `mod` 100) / 100 <= 1.
Proof.
  assert (pos `mod` 100 < 100)%nat as Hlt by (apply Nat.mod_upper_bound; lia).
  apply lt_INR in Hlt. pose proof (pos_INR (pos `mod` 100)).
  replace (INR 100) with 100 in Hlt by (simpl; lra). lra.
Qed.

(** The interpolated value lies between the two order statistics. *)
Lemma interpolate_between q :
  (q ≤ 100)%nat →
  nth ((q * (n - 1)) `div` 100) s 0 <= interpolate s q
    <= nth (Nat.min ((q * (n - 1)) `div` 100 + 1) (n - 1)) s 0.
Proof.
  intros Hq. unfold interpolate.
  pose proof (below_bound q Hq) as Hb. pose proof sorted_length_pos as Hn.
  pose proof (weight_bounds (q * (n - 1))) as Hw.
  assert (nth ((q * (n - 1)) `div` 100) s 0
          <= nth (Nat.min ((q * (n - 1)) `div` 100 + 1) (n - 1)) s 0) as Hle
    by (apply sorted_nth_le; [done|lia..]).
  revert Hw Hle.
  generalize (INR ((q * (n - 1)) `mod` 100) / 100).
  generalize (nth ((q * (n - 1)) `div` 100) s 0).
  generalize (nth (Nat.min ((q * (n - 1)) `div` 100 + 1) (n - 1)) s 0).
  intros y x w Hw Hle. nra.
Qed.

End interpolation.

Lemma np_percentile_value (a : vec) (q : nat) :
  (q ≤ 100)%nat → a ≠ [] →
  np_percentile a q = Ok (Fin (interpolate (merge_sort Rle a) q)).
Proof.
  intros Hq Ha. unfold np_percentile. rewrite decide_False by lia.
  by destruct a.
Qed.
End percentile_facts.



(** ** A chain that rests at its start point *)

Section chain.
Local Open Scope R_scope.








Lemma sum_list_app (l k : vec) : sum_list (l ++ k) = sum_list l + sum_list k.
Proof. induction l as [|a l IH]; simpl; [lra|]. rewrite IH. lra. Qed.

Lemma sum_list_replicate (m : nat) (x : R) : sum_list (replicate m x) = INR m * x.
Proof.
  induction m as [|m IH]; [simpl; lra|].
  rewrite S_INR. simpl. rewrite IH. lra.
Qed.


End chain.

(** * Further properties of the notebooks *)

(** ** The forward model: block design matrix times parameter vector *)

Section forward_model.
Local Open Scope R_scope.

Lemma block_design_row {A} (zero : A) (K T N : nat) (partialV : list (list A))
    (n c : nat) (r : list A) :
  length partialV = N → Forall (λ row, length row = T) partialV →
  (n < N)%nat → (c < K)%nat → partialV !! n = Some r →
  block_design zero K T partialV !! (n * K + c)%nat =
    Some (replicate (c * T) zero ++ r ++ replicate ((K - 1 - c) * T) zero).
Proof.
  intros HN HT Hn Hc Hr.
  destruct (block_design_upto_shape zero K T N partialV HN K) as [Hlen Hall].
  destruct (lookup_lt_is_Some_2 (block_design_upto zero K T partialV K)
              (n * K + c)) as [row Hrow]; [rewrite Hlen; nia|].
  unfold block_design. rewrite Hrow. f_equal.
  assert (length row = (K * T)%nat) as Hrowlen
    by (rewrite Forall_lookup in Hall; eauto).
  assert (length r = T) as Hrlen by (rewrite Forall_lookup in HT; eauto).
  assert (K * T = c * T + T + (K - 1 - c) * T)%nat as Hsplit by nia.
  apply list_eq. intros j.
  destruct (decide (j < K * T)%nat) as [Hj|Hj].
  - pose proof (block_design_upto_entry zero K T N partialV HN HT K n c j
                  ltac:(lia) Hn Hc Hj) as He.
    unfold entry in He. rewrite Hrow in He. simpl in He.
    rewrite He. unfold entry. rewrite Hr. simpl.
    case_decide.
    + rewrite lookup_app_r by (rewrite length_replicate; lia).
      rewrite length_replicate, lookup_app_l by lia. done.
    + destruct (decide (j < c * T)%nat).
      * rewrite lookup_app_l by (rewrite length_replicate; lia).
        by rewrite lookup_replicate_2.
      * rewrite lookup_app_r by (rewrite length_replicate; lia).
        rewrite length_replicate, lookup_app_r by lia.
        by rewrite lookup_replicate_2 by lia.
  - rewrite !lookup_ge_None_2; [done|..].
    + rewrite !length_app, !length_replicate. lia.
    + lia.
Qed.

Lemma dot_app (l1 l2 m1 m2 : vec) :
  length l1 = length m1 → dot (l1 ++ l2) (m1 ++ m2) = dot l1 m1 + dot l2 m2.
Proof.
  intros Hlen. unfold dot. rewrite zip_with_app by done.
  apply sum_list_app.
Qed.

Lemma dot_zeros_l (n : nat) (m : vec) : dot (replicate n 0) m = 0.
Proof.
  unfold dot. revert m. induction n as [|n IH]; intros [|a m]; simpl;
    try done.
  unfold sum_list in IH. rewrite IH. lra.
Qed.

(** A row of the block design matrix only reads the coefficients of its
    class. *)
Lemma dot_block (a T b : nat) (r m : vec) :
  length r = T → length m = (a + T + b)%nat →
  dot (replicate a 0 ++ r ++ replicate b 0) m = dot r (take T (drop a m)).
Proof.
  intros Hr Hm.
  rewrite <- (take_drop a m) at 1.
  rewrite dot_app by (rewrite length_replicate, length_take; lia).
  rewrite dot_zeros_l.
  rewrite <- (take_drop T (drop a m)) at 1.
  rewrite dot_app by (rewrite length_take, length_drop; lia).
  rewrite dot_zeros_l. lra.
Qed.
End forward_model.

(** X1.  The forward model computes one polynomial predictor per
    observation and class: entry [n*K + c] of [V@m] is the dot product of
    row [n] of the per-class design matrix with the [c]-th block of [T]
    coefficients of [m]; [V@m] has [N*K] entries. *)
Theorem forward_model_predictor
    (K T N : nat) (partialV : matrix) (m : vec) (n c : nat) (r : vec) :
  length partialV = N → Forall (λ row, length row = T) partialV →
  length m = K * T → n < N → c < K → partialV !! n = Some r →
  length (matvec (block_design 0%R K T partialV) m) = N * K ∧
  matvec (block_design 0%R K T partialV) m !! (n * K + c) =
    Some (dot r (take T (drop (c * T) m))).
Proof.
  intros HN HT Hm Hn Hc Hr. split.
  - unfold matvec. rewrite length_fmap.
    destruct (block_design_upto_shape 0%R K T N partialV HN K) as [Hlen _].
    unfold block_design. lia.
  - unfold matvec. rewrite list_lookup_fmap.
    rewrite (block_design_row 0%R K T N partialV n c r) by done. simpl.
    f_equal. apply dot_block.
    + rewrite Forall_lookup in HT. eauto.
    + nia.
Qed.

Lemma forward_model_predictor_witness :
  matvec (block_design 0%R 2 1 [[1%R]; [2%R]]) [3%R; 5%R] !! (1 * 2 + 1) =
    Some (dot [2%R] (take 1 (drop (1 * 1) [3%R; 5%R]))).
Proof.
  apply (forward_model_predictor 2 1 2 [[1%R]; [2%R]] [3%R; 5%R] 1 1 [2%R]);
    [reflexivity | repeat constructor | reflexivity | lia | lia | reflexivity].
Defined.

(** X2.  With a single class the stamping loop returns the per-class
    design matrix itself. *)
Theorem block_design_single_class {A} (zero : A) (T : nat) (partialV : list (list A)) :
  Forall (λ row, length row = T) partialV →
  block_design zero 1 T partialV = partialV.
Proof.
  intros HT. apply list_eq. intros n.
  destruct (partialV !! n) as [r|] eqn:Hr.
  - pose proof (block_design_row zero 1 T (length partialV) partialV n 0 r
                  eq_refl HT) as Hrow.
    replace (n * 1 + 0) with n in Hrow by lia.
    rewrite Hrow by (eauto using lookup_lt_Some; lia).
    simpl. by rewrite app_nil_r.
  - apply lookup_ge_None_2.
    destruct (block_design_upto_shape zero 1 T (length partialV) partialV
                eq_refl 1) as [Hlen _].
    unfold block_design. rewrite Hlen.
    apply lookup_ge_None_1 in Hr. lia.
Qed.

Lemma block_design_single_class_witness :
  block_design 0%Z 1 2 [[1; 2]; [3; 4]]%Z = [[1; 2]; [3; 4]]%Z.
Proof.
  apply (block_design_single_class 0%Z 2 [[1; 2]; [3; 4]]%Z).
  repeat constructor.
Defined.

(** ** The class-probability tensor *)

Section tensor_entries.
Context {F : Type} `{Arith F}.

Lemma tensor_lookup (K M : nat) (slices : list (list (list F)))
    (sl : list (list F)) (c p k : nat) :
  c < K → p < M → slices !! k = Some sl →
  tensor_entry (tensor_of_slices K M slices 0) c p k = Some (cell sl c p).
Proof.
  intros Hc Hp Hsl. unfold tensor_entry, tensor_of_slices.
  rewrite lookup_tab by done. simpl. rewrite lookup_tab by done. simpl.
  by rewrite app_nil_r, list_lookup_fmap, Hsl.
Qed.

Lemma retained_lookup (sampMat : list vec) (NumSamples burnIn k : nat) :
  k < NumSamples - burnIn →
  take (NumSamples - burnIn) (drop burnIn sampMat) !! k = sampMat !! (burnIn + k).
Proof. intros Hk. by rewrite lookup_take_lt, lookup_drop by done. Qed.

(** An entry of the tensor is the entry of the slice of its sample. *)
Lemma aggregate_entry (K M : nat) (V : matrix) (sampMat : list vec)
    (NumSamples burnIn : nat) :
  K ≠ 0 → length V = K * M →
  burnIn ≤ NumSamples → NumSamples ≤ length sampMat →
  (∀ i s, burnIn ≤ i < NumSamples → sampMat !! i = Some s →
          Forall (λ row, length row = length s) V) →
  ∃ probs, aggregate K M V sampMat NumSamples burnIn = Ok probs ∧
    ∀ c p k s, c < K → p < M → k < NumSamples - burnIn →
      sampMat !! (burnIn + k) = Some s →
      tensor_entry probs c p k =
        Some (ar_div (ar_exp (default 0%R (matvec V s !! (p * K + c))))
                (ar_sum ((λ c', ar_exp (default 0%R (matvec V s !! (p * K + c'))))
                           <$> seq 0 K))).
Proof.
  intros HK HV Hb Hn Hwf. eexists. split; [by apply aggregate_closed_form|].
  intros c p k s Hc Hp Hk Hs.
  rewrite (tensor_lookup K M _ (predict_slice K M V s)); [|done..|].
  - unfold cell. by rewrite predict_slice_entry.
  - by rewrite list_lookup_fmap, retained_lookup, Hs.
Qed.
End tensor_entries.

(** X3.  With the block design matrix of the prediction points, the
    tensor holds the softmax of the per-class polynomial predictors: the
    entry of class [c], point [p] and retained sample [k] is [exp(eta c)]
    divided by the sum over the classes [c'] of [exp(eta c')], in the
    arithmetic of the loop, where [eta c] is the dot product of row [p] of
    the per-class design matrix with the [c]-th coefficient block of the
    sample. *)
Theorem predictive_probabilities_softmax {F : Type} `{Arith F}
    (K T M : nat) (partialV : matrix) (sampMat : list vec)
    (NumSamples burnIn : nat) :
  K ≠ 0 → length partialV = M → Forall (λ row, length row = T) partialV →
  burnIn ≤ NumSamples → NumSamples ≤ length sampMat →
  (∀ i s, burnIn ≤ i < NumSamples → sampMat !! i = Some s → length s = K * T) →
  ∃ probs,
    aggregate K M (block_design 0%R K T partialV) sampMat NumSamples burnIn
      = Ok probs ∧
    ∀ c p k r s, c < K → partialV !! p = Some r → k < NumSamples - burnIn →
      sampMat !! (burnIn + k) = Some s →
      tensor_entry probs c p k =
        Some (ar_div (ar_exp (dot r (take T (drop (c * T) s))))
                (ar_sum ((λ c', ar_exp (dot r (take T (drop (c' * T) s))))
                           <$> seq 0 K))).
Proof.
  intros HK HM HT Hb Hn Hlen.
  destruct (block_design_upto_shape 0%R K T M partialV HM K) as [HVlen HVrows].
  destruct (aggregate_entry K M (block_design 0%R K T partialV) sampMat
              NumSamples burnIn) as (probs & Hagg & Hentry); [done..| |].
  { intros i s Hi Hs. rewrite (Hlen i s Hi Hs). exact HVrows. }
  exists probs. split; [done|].
  intros c p k r s Hc Hr Hk Hs.
  assert (p < M) as Hp by (rewrite <- HM; eauto using lookup_lt_Some).
  assert (length r = T) as Hrlen by (rewrite Forall_lookup in HT; eauto).
  assert (length s = K * T) as Hslen by (apply (Hlen (burnIn + k)); [lia|done]).
  assert (∀ c', c' < K →
            default 0%R (matvec (block_design 0%R K T partialV) s !! (p * K + c'))
            = dot r (take T (drop (c' * T) s))) as Hlin.
  { intros c' Hc'. unfold matvec. rewrite list_lookup_fmap.
    rewrite (block_design_row 0%R K T M partialV p c' r) by done. simpl.
    apply dot_block; [done|nia]. }
  rewrite (Hentry c p k s) by done.
  rewrite Hlin by done. do 3 f_equal.
  apply tab_ext. intros c' Hc'. by rewrite Hlin.
Qed.

Lemma predictive_probabilities_softmax_witness :
  ∃ probs,
    aggregate 2 1 (block_design 0%R 2 1 [[1%R]]) [[0; 0]%R] 1 0 = Ok probs ∧
    tensor_entry probs 0 0 0 =
      Some (f64_div (np_exp (dot [1%R] (take 1 (drop (0 * 1) [0; 0]%R))))
              (ar_sum ((λ c', np_exp (dot [1%R] (take 1 (drop (c' * 1) [0; 0]%R))))
                         <$> seq 0 2))).
Proof.
  destruct (predictive_probabilities_softmax (F:=npfloat) 2 1 1 [[1%R]] [[0; 0]%R] 1 0)
    as (probs & Hagg & Hentry);
    [lia | reflexivity | repeat constructor | lia | simpl; lia | |].
  - intros [|i] s Hi; [|lia]. by intros [= <-].
  - exists probs. split; [exact Hagg|].
    apply (Hentry 0 0 0 [1%R] [0; 0]%R); [lia | reflexivity | lia | reflexivity].
Defined.

(** X4.  For samples whose scores all lie between -700 and 700, and at
    most 1000 classes, every entry of the tensor is a float64 number
    between 0 and 1 (neither [nan] nor an infinity). *)
Theorem tensor_entries_are_probabilities
    (K M : nat) (V : matrix) (sampMat : list vec) (NumSamples burnIn : nat) :
  K ≠ 0 → K ≤ 1000 → length V = K * M →
  burnIn ≤ NumSamples → NumSamples ≤ length sampMat →
  (∀ i s, burnIn ≤ i < NumSamples → sampMat !! i = Some s →
          Forall (λ row, length row = length s) V ∧
          Forall (λ x, Rabs x <= 700)%R (matvec V s)) →
  ∃ probs, aggregate K M V sampMat NumSamples burnIn = Ok probs ∧
    ∀ c p k, c < K → p < M → k < NumSamples - burnIn →
      ∃ x, tensor_entry probs c p k = Some (Fin x) ∧ (0 <= x <= 1)%R.
Proof.
  intros HK HK' HV Hb Hn Hwf. eexists. split.
  - apply aggregate_closed_form; [done..|].
    intros i s Hi Hs. by apply (Hwf i s).
  - intros c p k Hc Hp Hk.
    destruct (lookup_lt_is_Some_2 sampMat (burnIn + k)) as [s Hs]; [lia|].
    destruct (Hwf (burnIn + k) s) as [_ Hbound]; [lia|done|].
    rewrite (tensor_lookup K M _ (predict_slice K M V s)); [|done..|];
      [|by rewrite list_lookup_fmap, retained_lookup, Hs].
    pose proof (predict_slice_column K M V s p Hp) as Hcol.
    destruct (normalised_column
                ((λ c, default 0%R (matvec V s !! (p * K + c))) <$> seq 0 K))
      as (ps & Hps & Hrange & _).
    + destruct K; [done|]. rewrite seq_S, fmap_app. by intros [_ ?]%app_eq_nil.
    + by rewrite length_fmap, length_seq.
    + apply Forall_fmap, Forall_forall. intros c' Hc'%elem_of_seq. simpl.
      destruct (lookup_lt_is_Some_2 (matvec V s) (p * K + c')) as [x Hx].
      { unfold matvec. rewrite length_fmap, HV. nia. }
      rewrite Hx. simpl. by eapply (proj1 (Forall_lookup _ _) Hbound).
    + rewrite Hps in Hcol.
      apply (f_equal (.!! c)) in Hcol.
      rewrite lookup_tab, list_lookup_fmap in Hcol by done.
      destruct (ps !! c) as [x|] eqn:Hx; [|done].
      injection Hcol as ->. exists x. split; [done|].
      by eapply (proj1 (Forall_lookup _ _) Hrange).
Qed.

Lemma tensor_entries_are_probabilities_witness :
  ∃ probs,
    aggregate 3 1 (block_design 0%R 3 1 [[1%R]]) [[0; 0; 0]%R] 1 0 = Ok probs ∧
    ∃ x, tensor_entry probs 2 0 0 = Some (Fin x) ∧ (0 <= x <= 1)%R.
Proof.
  destruct (tensor_entries_are_probabilities 3 1 (block_design 0%R 3 1 [[1%R]])
              [[0; 0; 0]%R] 1 0) as (probs & Hagg & Hentry);
    [lia | lia | reflexivity | lia | simpl; lia | |].
  - intros [|i] s Hi; [|lia]. intros [= <-]. split; [repeat constructor|].
    change (block_design 0%R 3 1 [[1%R]]) with chain_V. rewrite chain_matvec.
    repeat constructor; rewrite Rabs_R0; lra.
  - exists probs. split; [exact Hagg|]. apply (Hentry 2 0 0); lia.
Defined.

(** X5.  The tensor has one plane per class, one row per prediction point
    and one entry per retained sample. *)
Theorem tensor_shape {F : Type} `{Arith F}
    (K M : nat) (V : matrix) (sampMat : list vec) (NumSamples burnIn : nat) :
  K ≠ 0 → length V = K * M →
  burnIn ≤ NumSamples → NumSamples ≤ length sampMat →
  (∀ i s, burnIn ≤ i < NumSamples → sampMat !! i = Some s →
          Forall (λ row, length row = length s) V) →
  ∃ probs, aggregate K M V sampMat NumSamples burnIn = Ok probs ∧
    length probs = K ∧
    Forall (λ plane, length plane = M ∧
                     Forall (λ row, length row = NumSamples - burnIn) plane)
           probs.
Proof.
  intros HK HV Hb Hn Hwf. eexists. split; [by apply aggregate_closed_form|].
  unfold tensor_of_slices. split; [by rewrite length_fmap, length_seq|].
  apply Forall_fmap, Forall_forall. intros c _. simpl.
  split; [by rewrite length_fmap, length_seq|].
  apply Forall_fmap, Forall_forall. intros p _. simpl.
  rewrite app_nil_r, !length_fmap, length_take, length_drop. lia.
Qed.

Lemma tensor_shape_witness :
  ∃ probs,
    aggregate 3 1 (block_design 0%R 3 1 [[1%R]]) [[0; 0; 0]%R] 1 0 = Ok probs ∧
    length probs = 3.
Proof.
  destruct (tensor_shape 3 1 (block_design 0%R 3 1 [[1%R]]) [[0; 0; 0]%R] 1 0)
    as (probs & Hagg & Hlen & _);
    [lia | reflexivity | lia | simpl; lia | |].
  - intros [|i] s Hi; [|lia]. intros [= <-]. repeat constructor.
  - exists probs. split; [exact Hagg | exact Hlen].
Defined.

(** ** Errors of the aggregation loop *)

Section aggregate_errors.
Context {F : Type} `{Arith F}.
Variables (K M : nat) (V : matrix) (sampMat : list vec) (burnIn : nat).
Hypothesis K_nonzero : K ≠ 0.
Hypothesis V_rows : length V = K * M.

Lemma aggregate_raise_absorbs (e : pyexn) (l : list nat) :
  foldl (aggregate_step K M V sampMat burnIn) (Raise e) l = Raise e.
Proof. induction l as [|i l IH]; [done|]. simpl. exact IH. Qed.

(** The iterations over a run of well-formed samples succeed. *)
Lemma aggregate_prefix (pend extra : nat) : ∀ done : list (list (list F)),
  (∀ i, burnIn + length done ≤ i < burnIn + length done + pend →
        ∃ s, sampMat !! i = Some s ∧ Forall (λ row, length row = length s) V) →
  ∃ done',
    foldl (aggregate_step K M V sampMat burnIn)
      (Ok (tensor_of_slices K M done (pend + extra)))
      (seq (burnIn + length done) pend) =
    Ok (tensor_of_slices K M done' extra).
Proof.
  induction pend as [|pend IH]; intros done Hwf.
  - exists done. reflexivity.
  - destruct (Hwf (burnIn + length done)) as (s & Hs & Hrows); [lia|].
    cbn [seq foldl Nat.add].
    rewrite (aggregate_step_Ok K M V K_nonzero V_rows sampMat burnIn done
               (pend + extra) s Hs Hrows).
    destruct (IH (done ++ [predict_slice K M V s])) as [done' Hdone'].
    { intros i Hi. apply Hwf. rewrite length_app in Hi. simpl in Hi. lia. }
    exists done'. rewrite <- Hdone'. rewrite length_app. simpl.
    by replace (burnIn + (length done + 1)) with (S (burnIn + length done)) by lia.
Qed.

(** The loop stops at the first iteration that raises. *)
Lemma aggregate_fails_at (NumSamples j : nat) (e : pyexn) :
  burnIn ≤ j < NumSamples →
  (∀ i, burnIn ≤ i < j →
        ∃ s, sampMat !! i = Some s ∧ Forall (λ row, length row = length s) V) →
  (∀ probs, aggregate_step K M V sampMat burnIn (Ok probs) j = Raise e) →
  aggregate K M V sampMat NumSamples burnIn = Raise e.
Proof.
  intros Hj Hwf Hstep. unfold aggregate, np_zeros3.
  rewrite decide_False by lia. cbn.
  replace (NumSamples - burnIn) with ((j - burnIn) + S (NumSamples - j - 1)) by lia.
  rewrite seq_app, foldl_app.
  destruct (aggregate_prefix (j - burnIn) (S (NumSamples - j - 1)) [])
    as [done' Hdone'].
  { simpl. intros i Hi. apply Hwf. lia. }
  simpl in Hdone'. rewrite Nat.add_0_r in Hdone'.
  unfold tensor_of_slices in Hdone' at 1. simpl in Hdone'.
  rewrite <- !replicate_tab in Hdone'. rewrite Hdone'.
  cbn [seq foldl].
  replace (burnIn + (j - burnIn)) with j by lia.
  rewrite Hstep. apply aggregate_raise_absorbs.
Qed.
End aggregate_errors.

(** X6.  When the chain holds fewer states than [NumSamples] (and the
    burn-in is below [NumSamples], so that the loop runs), the loop reads a
    column that does not exist and raises [IndexError]. *)
Theorem aggregate_too_few_samples {F : Type} `{Arith F}
    (K M : nat) (V : matrix) (sampMat : list vec) (NumSamples burnIn : nat) :
  K ≠ 0 → length V = K * M →
  burnIn < NumSamples → length sampMat < NumSamples →
  Forall (λ s, Forall (λ row, length row = length s) V) sampMat →
  aggregate K M V sampMat NumSamples burnIn = Raise IndexError.
Proof.
  intros HK HV Hb Hn Hwf.
  apply (aggregate_fails_at K M V sampMat burnIn HK HV NumSamples
           (Nat.max burnIn (length sampMat))); [lia| |].
  - intros i Hi.
    destruct (lookup_lt_is_Some_2 sampMat i) as [s Hs]; [lia|].
    exists s. split; [done|]. rewrite Forall_lookup in Hwf. by eapply Hwf.
  - intros probs. unfold aggregate_step, column. cbn.
    by rewrite lookup_ge_None_2 by lia.
Qed.

Lemma aggregate_too_few_samples_witness :
  aggregate 3 1 (block_design 0%R 3 1 [[1%R]]) [[0; 0; 0]%R] 2 0
    = Raise IndexError.
Proof.
  apply aggregate_too_few_samples;
    [lia | reflexivity | lia | simpl; lia | repeat constructor].
Defined.

(** X7.  When a retained sample does not have the length of the rows of
    [V] (and the samples before it do), [np.dot] raises [ValueError]. *)
Theorem aggregate_sample_size_mismatch {F : Type} `{Arith F}
    (K M : nat) (V : matrix) (sampMat : list vec) (NumSamples burnIn j : nat)
    (s : vec) :
  K ≠ 0 → length V = K * M →
  burnIn ≤ j < NumSamples →
  sampMat !! j = Some s →
  ¬ Forall (λ row, length row = length s) V →
  (∀ i s', burnIn ≤ i < j → sampMat !! i = Some s' →
           Forall (λ row, length row = length s') V) →
  aggregate K M V sampMat NumSamples burnIn = Raise ValueError.
Proof.
  intros HK HV Hj Hs Hbad Hwf.
  apply (aggregate_fails_at K M V sampMat burnIn HK HV NumSamples j); [done| |].
  - intros i Hi.
    destruct (lookup_lt_is_Some_2 sampMat i) as [s' Hs'].
    { apply lookup_lt_Some in Hs. lia. }
    exists s'. split; [done|]. by eapply Hwf.
  - intros probs. unfold aggregate_step, column, np_dot. cbn.
    rewrite Hs. cbn. by rewrite decide_False.
Qed.

Lemma aggregate_sample_size_mismatch_witness :
  aggregate 3 1 (block_design 0%R 3 1 [[1%R]]) [[0; 0; 0]%R; [0; 0]%R] 2 0
    = Raise ValueError.
Proof.
  apply (aggregate_sample_size_mismatch 3 1 (block_design 0%R 3 1 [[1%R]])
           [[0; 0; 0]%R; [0; 0]%R] 2 0 1 [0; 0]%R);
    [lia | reflexivity | lia | reflexivity | | ].
  - intros Hall. apply Forall_inv in Hall. simpl in Hall. lia.
  - intros [|i] s' Hi; [|lia]. intros [= <-]. repeat constructor.
Defined.

(** ** More on the summary statistics *)

Section summary_facts.
Local Open Scope R_scope.

Lemma merge_sort_strongly_sorted (a : vec) : StronglySorted Rle (merge_sort Rle a).
Proof. apply StronglySorted_merge_sort; tc_solve. Qed.

Lemma merge_sort_nonempty (a : vec) : a ≠ [] → merge_sort Rle a ≠ [].
Proof.
  intros Hne Hnil. apply Hne, Permutation_nil. rewrite <- Hnil.
  apply merge_sort_Permutation.
Qed.

Lemma merge_sort_same_length (a : vec) : length (merge_sort Rle a) = length a.
Proof. apply Permutation_length, merge_sort_Permutation. Qed.

Lemma merge_sort_Forall (P : R → Prop) (a : vec) :
  Forall P a → Forall P (merge_sort Rle a).
Proof. intros Ha. by rewrite merge_sort_Permutation. Qed.

Lemma sum_list_bounds (a : vec) (lo hi : R) :
  Forall (λ x, lo <= x <= hi) a →
  INR (length a) * lo <= sum_list a <= INR (length a) * hi.
Proof.
  induction 1 as [|x a Hx Ha IH].
  - simpl. lra.
  - change (length (x :: a)) with (S (length a)). rewrite S_INR. simpl. lra.
Qed.

Lemma length_INR_pos (a : vec) : a ≠ [] → 0 < INR (length a).
Proof.
  intros Ha. apply lt_0_INR. destruct a; [done|simpl; lia].
Qed.

Lemma np_mean_value (a : vec) :
  a ≠ [] → np_mean a = Fin (sum_list a / INR (length a)).
Proof.
  intros Ha. unfold np_mean. apply np_div_Fin.
  pose proof (length_INR_pos a Ha). lra.
Qed.

Lemma interpolate_within (s : vec) (q : nat) (lo hi : R) :
  StronglySorted Rle s → s ≠ [] → (q ≤ 100)%nat →
  Forall (λ x, lo <= x <= hi) s →
  lo <= interpolate s q <= hi.
Proof.
  intros Hsorted Hne Hq Hall.
  pose proof (interpolate_between s Hsorted Hne q Hq) as [Hlow Hup].
  pose proof (below_bound s q Hq) as Hb.
  pose proof (sorted_length_pos s Hsorted Hne) as Hn.
  assert (∀ i, (i ≤ length s - 1)%nat → lo <= nth i s 0 <= hi) as Hnth.
  { intros i Hi. apply (proj1 (Forall_nth _ 0 _) Hall). lia. }
  pose proof (Hnth _ Hb) as H1.
  pose proof (Hnth (Nat.min ((q * (length s - 1)) `div` 100 + 1) (length s - 1))
                ltac:(lia)) as H2.
  lra.
Qed.
End summary_facts.

(** X10.  The statistics of probabilities are probabilities: for a
    non-empty sample array with entries in [[0,1]], every percentile and
    the mean lie in [[0,1]]. *)
Theorem summary_statistics_within_bounds (a : vec) (q : nat) :
  a ≠ [] → q ≤ 100 → Forall (λ x, 0 <= x <= 1)%R a →
  ∃ v m, np_percentile a q = Ok (Fin v) ∧ np_mean a = Fin m ∧
         (0 <= v <= 1)%R ∧ (0 <= m <= 1)%R.
Proof.
  intros Ha Hq Hall.
  exists (interpolate (merge_sort Rle a) q), (sum_list a / INR (length a))%R.
  split; [by apply np_percentile_value|].
  split; [by apply np_mean_value|].
  split.
  - apply interpolate_within; [apply merge_sort_strongly_sorted| |done|].
    + by apply merge_sort_nonempty.
    + by apply merge_sort_Forall.
  - pose proof (sum_list_bounds a 0 1 Hall) as Hsum.
    pose proof (length_INR_pos a Ha) as Hpos.
    assert (sum_list a / INR (length a) * INR (length a) = sum_list a)%R as Hd
      by (field; lra).
    revert Hd. generalize (sum_list a / INR (length a))%R. intros m Hd.
    split; nra.
Qed.

Lemma summary_statistics_within_bounds_witness :
  ∃ v m, np_percentile [1 / 3; 1 / 2]%R 50 = Ok (Fin v) ∧
         np_mean [1 / 3; 1 / 2]%R = Fin m ∧
         (0 <= v <= 1)%R ∧ (0 <= m <= 1)%R.
Proof.
  apply (summary_statistics_within_bounds [1 / 3; 1 / 2]%R 50);
    [discriminate | lia | repeat constructor; lra].
Defined.

Section order_free.
Local Open Scope R_scope.

Lemma merge_sort_Permutation_eq (a a' : vec) :
  a ≡ₚ a' → merge_sort Rle a = merge_sort Rle a'.
Proof.
  intros Hperm.
  apply (StronglySorted_unique Rle); [apply merge_sort_strongly_sorted..|].
  by rewrite !merge_sort_Permutation.
Qed.
End order_free.

(** X11.  The percentiles do not depend on the order of the samples: two
    arrays with the same entries, in any order, have the same
    percentiles. *)
Theorem percentile_order_free (a a' : vec) (q : nat) :
  a ≡ₚ a' → np_percentile a q = np_percentile a' q.
Proof.
  intros Hperm.
  unfold np_percentile. case_decide; [done|].
  rewrite (merge_sort_Permutation_eq a a' Hperm).
  destruct a as [|x a], a' as [|x' a']; try done.
  - by apply Permutation_nil_cons in Hperm.
  - symmetry in Hperm. by apply Permutation_nil_cons in Hperm.
Qed.

Lemma percentile_order_free_witness :
  np_percentile [1 / 2; 1 / 3]%R 99 = np_percentile [1 / 3; 1 / 2]%R 99.
Proof.
  apply (percentile_order_free [1 / 2; 1 / 3]%R [1 / 3; 1 / 2]%R 99).
  apply perm_swap.
Defined.

(** ** More on the covariate scaling *)

Section scaling_more.
Local Open Scope R_scope.

Lemma scale_affine_lo lo hi : lo < hi → scale_affine lo hi lo = Fin 0.
Proof. intros. rewrite scale_affine_Fin by done. f_equal. field. lra. Qed.

Lemma scale_affine_hi lo hi : lo < hi → scale_affine lo hi hi = Fin 1.
Proof. intros. rewrite scale_affine_Fin by done. f_equal. field. lra. Qed.

Lemma scale_periodic_lo lo hi : lo < hi → scale_periodic lo hi lo = Fin 1.
Proof.
  intros. rewrite scale_periodic_Fin by done. f_equal.
  replace (2 * PI * (lo - lo) / (hi - lo)) with 0 by (field; lra).
  rewrite cos_0. lra.
Qed.
End scaling_more.

(** X13.  The scaled training data reach the ends of the interval: when
    the maxima exceed the minima, 0 and 1 both occur among the scaled
    times and among the scaled latitudes, and 1 occurs among the scaled
    longitudes. *)
Theorem scaling_extremes_attained timeRaw latRaw lonRaw e c :
  scale_training timeRaw latRaw lonRaw = Ok (e, c) →
  (minTime e < maxTime e)%R → (minLat e < maxLat e)%R →
  (minLon e < maxLon e)%R →
  Fin 0 ∈ time c ∧ Fin 1 ∈ time c ∧
  Fin 0 ∈ lat c ∧ Fin 1 ∈ lat c ∧
  Fin 1 ∈ lon c.
Proof.
  intros [He ->]%scale_training_Ok Ht Ha Ho.
  apply read_extrema_Ok in He as (Ht0 & Ht1 & Ha0 & Ha1 & Ho0 & _).
  apply np_min_spec in Ht0 as [Ht0 _]. apply np_max_spec in Ht1 as [Ht1 _].
  apply np_min_spec in Ha0 as [Ha0 _]. apply np_max_spec in Ha1 as [Ha1 _].
  apply np_min_spec in Ho0 as [Ho0 _].
  simpl. repeat split; apply list_elem_of_fmap.
  - exists (minTime e). by rewrite scale_affine_lo.
  - exists (maxTime e). by rewrite scale_affine_hi.
  - exists (minLat e). by rewrite scale_affine_lo.
  - exists (maxLat e). by rewrite scale_affine_hi.
  - exists (minLon e). by rewrite scale_periodic_lo.
Qed.

Lemma scaling_extremes_attained_witness :
  Fin 0 ∈ time (scale_covariates ex_extrema ex_timeRaw ex_latRaw ex_lonRaw) ∧
  Fin 1 ∈ time (scale_covariates ex_extrema ex_timeRaw ex_latRaw ex_lonRaw) ∧
  Fin 0 ∈ lat (scale_covariates ex_extrema ex_timeRaw ex_latRaw ex_lonRaw) ∧
  Fin 1 ∈ lat (scale_covariates ex_extrema ex_timeRaw ex_latRaw ex_lonRaw) ∧
  Fin 1 ∈ lon (scale_covariates ex_extrema ex_timeRaw ex_latRaw ex_lonRaw).
Proof.
  apply (scaling_extremes_attained ex_timeRaw ex_latRaw ex_lonRaw ex_extrema);
    [apply scale_training_example | simpl; lra..].
Defined.

(** X14.  The time and latitude scalings keep the order: when the maximum
    exceeds the minimum, [a <= b] holds exactly when the scaled [a] is at
    most the scaled [b]. *)
Theorem scale_affine_monotone (lo hi a b : R) :
  (lo < hi)%R →
  (a <= b)%R ↔ np_le (scale_affine lo hi a) (scale_affine lo hi b).
Proof.
  intros Hlt. rewrite !scale_affine_Fin by done. simpl.
  assert (0 < hi - lo)%R as Hpos by lra.
  assert ((a - lo) / (hi - lo) * (hi - lo) = a - lo)%R as Ha by (field; lra).
  assert ((b - lo) / (hi - lo) * (hi - lo) = b - lo)%R as Hb by (field; lra).
  revert Ha Hb.
  generalize ((a - lo) / (hi - lo))%R, ((b - lo) / (hi - lo))%R.
  intros sa sb Ha Hb. split; intros; nra.
Qed.

Lemma scale_affine_monotone_witness :
  (1990 <= 2000)%R ↔
  np_le (scale_affine 1984 2016 1990) (scale_affine 1984 2016 2000).
Proof. apply (scale_affine_monotone 1984 2016 1990 2000). lra. Defined.


(** ** The posterior at the start point of the chain *)

Section start_point.
Local Open Scope R_scope.

Lemma sum_list_imap_const (f : nat → nat → R) (c : R) (data : list nat) :
  (∀ i y, data !! i = Some y → f i y = c) →
  sum_list (imap f data) = INR (length data) * c.
Proof.
  revert f. induction data as [|y data IH]; intros f Hf; [simpl; lra|].
  rewrite imap_cons. change (length (y :: data)) with (S (length data)).
  rewrite S_INR. simpl.
  rewrite (Hf 0%nat y eq_refl), (IH (f ∘ S)); [lra|].
  intros i y' Hi. apply (Hf (S i) y' Hi).
Qed.

Lemma class_scores_zeros (K N i : nat) :
  (i < N)%nat → class_scores K (replicate (K * N) 0) i = replicate K 0.
Proof.
  intros Hi. unfold class_scores.
  rewrite drop_replicate, take_replicate. f_equal. nia.
Qed.

(** With a zero predictor every observation contributes [-ln K]. *)
Lemma likelihood_zero_predictor (K : nat) (ages : list nat) :
  likelihood_log_density K (replicate (K * length ages) 0) ages
    = - INR (length ages) * ln (INR K).
Proof.
  unfold likelihood_log_density, multilogit_log_density.
  rewrite (sum_list_imap_const _ (- ln (INR K))); [lra|].
  intros i y Hi.
  rewrite class_scores_zeros by (by eapply lookup_lt_Some).
  rewrite fmap_replicate, sum_list_replicate, exp_0, Rmult_1_r.
  destruct (replicate K 0 !! y) as [x|] eqn:Hx; simpl; [|lra].
  apply lookup_replicate in Hx as [-> _]. lra.
Qed.

Lemma prior_at_zero (K T : nat) :
  prior_log_density K T (replicate (K * T) 0)
    = - (INR (K * T) / 2) * (ln (2 * PI) + ln 100).
Proof.
  unfold prior_log_density, gaussian_log_density, paramDim.
  rewrite length_replicate, zip_with_replicate, sum_list_replicate. lra.
Qed.
End start_point.

(** X17.  The chain starts at a point where the posterior evaluates: at
    [startPt], the zero vector of the parameter dimension, the posterior is
    the prior log-density at zero, [-(K*T/2)*(ln(2*pi) + ln 100)], minus
    [N*ln K], whatever the labels (every class is equiprobable there). *)
Theorem posterior_at_start_point
    (K T : nat) (partialV : matrix) (ages : list nat) :
  length ages = length partialV →
  posterior K T partialV ages (startPt K T) =
    Ok [(- (INR (K * T) / 2) * (ln (2 * PI) + ln 100)
         - INR (length ages) * ln (INR K))%R].
Proof.
  intros Hages. unfold posterior, CreateModPiece, startPt.
  rewrite graph_size.
  rewrite (eval_Posterior K T (length partialV))
    by (done || by rewrite length_replicate).
  rewrite matvec_zeros, (V_train_length K T (length partialV)) by done.
  rewrite <- Hages, likelihood_zero_predictor, prior_at_zero.
  do 2 f_equal. lra.
Qed.

Lemma posterior_at_start_point_witness :
  posterior 2 2 scenario_partialV scenario_labels (startPt 2 2) =
    Ok [(- (INR (2 * 2) / 2) * (ln (2 * PI) + ln 100)
         - INR (length scenario_labels) * ln (INR 2))%R].
Proof.
  apply (posterior_at_start_point 2 2 scenario_partialV scenario_labels).
  reflexivity.
Defined.

(** ** The Helmholtz notebook *)

(** X19.  A point source is put on the right-hand side exactly when both
    of its coordinates are positive: a source on the axis [x = 0] or
    [y = 0] is never applied, and the sources that are applied keep the
    order first, second. *)
Theorem point_sources_applied (s1x s1y s2x s2y : R) (p : R * R) :
  (p ∈ point_sources s1x s1y s2x s2y ↔
     (p = (s1x, s1y) ∧ (0 < s1x)%R ∧ (0 < s1y)%R) ∨
     (p = (s2x, s2y) ∧ (0 < s2x)%R ∧ (0 < s2y)%R)) ∧
  length (point_sources s1x s1y s2x s2y) ≤ 2 ∧
  ((0 < s1x)%R ∧ (0 < s1y)%R ∧ (0 < s2x)%R ∧ (0 < s2y)%R →
     point_sources s1x s1y s2x s2y = [(s1x, s1y); (s2x, s2y)]).
Proof.
  assert (∀ sx sy, (0 < Rmin sx sy)%R ↔ (0 < sx)%R ∧ (0 < sy)%R) as Hmin.
  { intros sx sy. unfold Rmin. destruct (Rle_dec sx sy); split; intros; lra. }
  assert (∀ sx sy q, q ∈ point_source sx sy ↔
                     q = (sx, sy) ∧ (0 < sx)%R ∧ (0 < sy)%R) as Hone.
  { intros sx sy q. unfold point_source.
    destruct (Rlt_dec 0 (Rmin sx sy)) as [H|H]; rewrite Hmin in H.
    - rewrite list_elem_of_singleton. split; [intros ->; tauto|by intros [-> _]].
    - rewrite elem_of_nil. split; [done|intros [_ Hpos]; tauto]. }
  split; [|split].
  - unfold point_sources. by rewrite elem_of_app, !Hone.
  - unfold point_sources, point_source. rewrite length_app.
    destruct (Rlt_dec 0 (Rmin s1x s1y)), (Rlt_dec 0 (Rmin s2x s2y)); simpl; lia.
  - intros (H1 & H2 & H3 & H4). unfold point_sources, point_source.
    destruct (Rlt_dec 0 (Rmin s1x s1y)) as [_|H]; [|rewrite Hmin in H; tauto].
    destruct (Rlt_dec 0 (Rmin s2x s2y)) as [_|H]; [|rewrite Hmin in H; tauto].
    reflexivity.
Qed.

Section linspace.
Local Open Scope R_scope.

Lemma length_np_linspace (start stop : R) (num : nat) :
  length (np_linspace start stop num) = num.
Proof.
  unfold np_linspace. case_decide.
  - by rewrite length_insert, length_fmap, length_seq.
  - by rewrite length_fmap, length_seq.
Qed.

(** Entry [k] of [np.linspace(start, stop, num)], for [num >= 2]. *)
Lemma np_linspace_lookup (start stop : R) (num k : nat) :
  (2 ≤ num)%nat → (k < num)%nat →
  np_linspace start stop num !! k =
    Some (start + INR k * ((stop - start) / INR (num - 1))).
Proof.
  intros Hnum Hk. unfold np_linspace. rewrite decide_True by lia.
  assert (0 < INR (num - 1)) as Hpos by (apply lt_0_INR; lia).
  destruct (decide (k = num - 1)%nat) as [->|Hne].
  - rewrite list_lookup_insert_eq by (rewrite length_fmap, length_seq; lia).
    f_equal. field. lra.
  - rewrite list_lookup_insert_ne by done.
    rewrite lookup_tab by done. f_equal. lra.
Qed.
End linspace.

(** X20.  [np.linspace(start, stop, num)] has [num] entries; for
    [num >= 2] they are equally spaced, [start + k*(stop-start)/(num-1)],
    from [start] to [stop] included, and lie between the two when
    [start <= stop]; for [num = 1] the only entry is [start]. *)
Theorem np_linspace_spec (start stop : R) (num : nat) :
  length (np_linspace start stop num) = num ∧
  np_linspace start stop 1 = [start] ∧
  (2 ≤ num →
     np_linspace start stop num !! 0 = Some start ∧
     np_linspace start stop num !! (num - 1) = Some stop ∧
     (∀ k, k < num →
        np_linspace start stop num !! k =
          Some (start + INR k * ((stop - start) / INR (num - 1)))%R) ∧
     ((start <= stop)%R →
        Forall (λ v, start <= v <= stop)%R (np_linspace start stop num))).
Proof.
  split; [apply length_np_linspace|].
  split; [unfold np_linspace; simpl; f_equal; lra|].
  intros Hnum.
  assert (0 < INR (num - 1))%R as Hpos by (apply lt_0_INR; lia).
  split; [|split; [|split]].
  - rewrite np_linspace_lookup by lia. f_equal. simpl. lra.
  - rewrite np_linspace_lookup by lia. f_equal. field. lra.
  - intros k Hk. by apply np_linspace_lookup.
  - intros Hle. apply Forall_lookup. intros k v Hv.
    assert (k < num) as Hk
      by (apply lookup_lt_Some in Hv; by rewrite length_np_linspace in Hv).
    rewrite np_linspace_lookup in Hv by done. injection Hv as <-.
    assert (0 <= INR k <= INR (num - 1))%R as Hk'
      by (split; [apply pos_INR | apply le_INR; lia]).
    assert ((stop - start) / INR (num - 1) * INR (num - 1) = stop - start)%R
      as Hd by (field; lra).
    revert Hd. generalize ((stop - start) / INR (num - 1))%R. intros d Hd.
    split; nra.
Qed.

Section grids.
Local Open Scope R_scope.

Lemma rows_of_concat (n : nat) (rows : matrix) :
  Forall (λ row, length row = n) rows →
  rows_of (length rows) n (concat rows) = rows.
Proof.
  induction 1 as [|row rows Hrow _ IH]; [done|].
  simpl. rewrite take_app_length', drop_app_length' by done.
  by rewrite IH.
Qed.

Lemma length_concat_rows (n : nat) (rows : matrix) :
  Forall (λ row, length row = n) rows →
  length (concat rows) = (length rows * n)%nat.
Proof.
  induction 1 as [|row rows Hrow _ IH]; [done|].
  simpl. rewrite length_app, IH, Hrow. lia.
Qed.

(** The points of the flattened grid, row after row: all of [x] for the
    first entry of [y], then all of [x] for the second one, ... *)
Lemma grid_points (u : R → R → R) (x y : vec) :
  (λ p, u p.1 p.2) <$> zip (flatten (np_meshgrid x y).1) (flatten (np_meshgrid x y).2)
    = concat ((λ yi, (λ xj, u xj yi) <$> x) <$> y).
Proof.
  unfold flatten, np_meshgrid. simpl.
  induction y as [|yi y IH]; [done|].
  csimpl. rewrite zip_with_app by (by rewrite length_replicate).
  rewrite fmap_app. f_equal; [|exact IH].
  rewrite zip_with_replicate_r_eq by done.
  by rewrite <- list_fmap_compose.
Qed.
End grids.

(** X21.  The values plotted by [helm] are laid out as [contourf(x, y, .)]
    reads them: for [x] and [y] of [n] entries, flattening the mesh grid,
    evaluating [u] and reshaping to [(n, n)] succeeds, and the entry of row
    [i] and column [j] is [u(x[j], y[i])]. *)
Theorem grid_values_layout (u : R → R → R) (x y : vec) (n : nat) :
  length x = n → length y = n →
  ∃ Z, grid_values u x y n = Ok Z ∧
       length Z = n ∧
       ∀ i j xj yi, x !! j = Some xj → y !! i = Some yi →
         entry Z i j = Some (u xj yi).
Proof.
  intros Hx Hy.
  assert (Forall (λ row, length row = n) ((λ yi, (λ xj, u xj yi) <$> x) <$> y))
    as Hrows.
  { apply Forall_fmap, Forall_forall. intros yi _. simpl.
    by rewrite length_fmap. }
  exists ((λ yi, (λ xj, u xj yi) <$> x) <$> y).
  split; [|split].
  - unfold grid_values, reshape. rewrite grid_points.
    rewrite decide_True
      by (rewrite (length_concat_rows n) by done; by rewrite length_fmap, Hy).
    f_equal.
    rewrite <- (rows_of_concat n _ Hrows) at 2.
    by rewrite length_fmap, Hy.
  - by rewrite length_fmap.
  - intros i j xj yi Hj Hi. unfold entry.
    rewrite list_lookup_fmap, Hi. simpl.
    by rewrite list_lookup_fmap, Hj.
Qed.

Lemma grid_values_layout_witness :
  ∃ Z, grid_values (λ a b, a - b)%R [0; 1]%R [0; 1]%R 2 = Ok Z ∧
       length Z = 2 ∧
       ∀ i j xj yi, [0; 1]%R !! j = Some xj → [0; 1]%R !! i = Some yi →
         entry Z i j = Some (xj - yi)%R.
Proof.
  apply (grid_values_layout (λ a b, a - b)%R [0; 1]%R [0; 1]%R 2); reflexivity.
Defined.

Section sample_line.
Local Open Scope R_scope.

Lemma append_measurements (u : R → R → R) (locs : list (R * R)) (k : nat) :
  ∀ acc : vec, (length acc + k ≤ length locs)%nat →
  foldl (append_measurement u locs) (Ok acc) (seq (length acc) k) =
    Ok (acc ++ ((λ p, u p.1 p.2) <$> take k (drop (length acc) locs))).
Proof.
  induction k as [|k IH]; intros acc Hlen.
  - simpl. by rewrite app_nil_r.
  - destruct (lookup_lt_is_Some_2 locs (length acc)) as [p Hp]; [lia|].
    cbn [seq foldl]. unfold append_measurement at 2. cbn. rewrite Hp.
    specialize (IH (acc ++ [u p.1 p.2])).
    rewrite length_app in IH. simpl in IH.
    replace (S (length acc)) with (length acc + 1)%nat by lia.
    rewrite IH by lia. f_equal. rewrite <- app_assoc. f_equal.
    rewrite (drop_S _ _ _ Hp). simpl.
    by replace (length acc + 1)%nat with (S (length acc)) by lia.
Qed.
End sample_line.

(** X22.  The measurement cell only works for [ns = 9]: the nine heights
    [0.9*np.ones(9)] are stacked on [ns] abscissas, so that any other [ns]
    raises [ValueError]; for [ns = 9] the measurements are the column of
    the values of [u] at the points [(0.1 + 0.1*k, 0.9)], [k = 0..8]. *)
Theorem line_values_spec (u : R → R → R) (ns : nat) :
  (ns ≠ 9 → line_values u ns = Raise ValueError) ∧
  line_values u 9 = Ok ((λ k, [u (0.1 + INR k * 0.1) 0.9]%R) <$> seq 0 9).
Proof.
  split.
  - intros Hns. unfold line_values, sample_locs, np_vstack_T.
    case_decide as Hd; [|done].
    by rewrite length_np_linspace, length_replicate in Hd.
  - unfold line_values, sample_locs, np_vstack_T.
    case_decide as Hd;
      [|exfalso; apply Hd; by rewrite length_np_linspace, length_replicate].
    cbn [mbind pyresult_bind].
    assert (zip (np_linspace 0.1 0.9 9) (replicate 9 (0.9 * 1)%R) =
            (λ k, (0.1 + INR k * 0.1, 0.9)%R) <$> seq 0 9) as ->.
    { apply list_eq. intros k. rewrite lookup_zip_with.
      destruct (decide (k < 9)) as [Hk|Hk].
      - rewrite np_linspace_lookup, lookup_replicate_2, lookup_tab by lia.
        simpl. do 2 f_equal; [|lra].
        replace (INR (9 - 1)) with 8%R by (simpl; lra). lra.
      - rewrite (lookup_ge_None_2 (np_linspace 0.1 0.9 9))
          by (rewrite length_np_linspace; lia).
        by rewrite list_lookup_fmap, lookup_seq_ge by lia. }
    pose proof (append_measurements u
                  ((λ k, (0.1 + INR k * 0.1, 0.9)%R) <$> seq 0 9) 9 []) as Hloop.
    simpl length in Hloop. rewrite Hloop by (rewrite ?length_fmap; simpl; lia).
    cbn [mbind pyresult_bind]. reflexivity.
Qed.

Lemma line_values_spec_witness :
  line_values (λ a b, a + b)%R 3 = Raise ValueError.
Proof. apply (line_values_spec (λ a b, a + b)%R 3). lia. Defined.

(** ** The noise level of the synthetic observations *)

Section noise_facts.
Local Open Scope R_scope.

Lemma norm_linf_nonneg (d : vec) : 0 <= norm_linf d.
Proof.
  induction d as [|x d IH]; simpl; [lra|].
  pose proof (Rmax_r (Rabs x) (norm_linf d)). unfold norm_linf in *. lra.
Qed.

Lemma norm_linf_zero (d : vec) : norm_linf d = 0 ↔ Forall (λ x, x = 0) d.
Proof.
  induction d as [|x d IH]; simpl.
  - split; [constructor|done].
  - pose proof (norm_linf_nonneg d) as Hd. pose proof (Rabs_pos x) as Hx.
    fold (norm_linf d). rewrite Forall_cons, <- IH. split.
    + intros Hmax.
      pose proof (Rmax_l (Rabs x) (norm_linf d)).
      pose proof (Rmax_r (Rabs x) (norm_linf d)).
      split; [|lra].
      destruct (Req_dec x 0) as [|Hne]; [done|].
      apply Rabs_pos_lt in Hne. lra.
    + intros [-> ->]. rewrite Rabs_R0. apply Rmax_left. lra.
Qed.
End noise_facts.

(** X23.  The noise variance of the synthetic data is never negative, and
    it is zero exactly when [rel_noise] is zero or every observation is
    zero. *)
Theorem noise_variance_zero (rel_noise : R) (d : vec) :
  (0 <= noise_variance rel_noise d)%R ∧
  (noise_variance rel_noise d = 0%R ↔
     rel_noise = 0%R ∨ Forall (λ x, x = 0%R) d).
Proof.
  unfold noise_variance, noise_std_dev. split.
  - nra.
  - rewrite <- norm_linf_zero. pose proof (norm_linf_nonneg d). split.
    + intros Hzero.
      destruct (Req_dec rel_noise 0) as [|Hr]; [by left|right].
      destruct (Req_dec (norm_linf d) 0) as [|Hn]; [done|].
      exfalso. assert (rel_noise * norm_linf d ≠ 0)%R by (by apply Rmult_integral_contrapositive).
      nra.
    + intros [-> | ->]; lra.
Qed.

(** ** Overflow of the exponential *)

(** X25.  Where a retained sample gives a class a score of 710 or more at
    a prediction point, [np.exp] returns [inf], the sum over the classes
    is [inf] and the entry stored for that class is [inf/inf = nan]; a
    class whose score lies between -700 and 700 at that point gets the
    entry 0. *)
Theorem softmax_overflow
    (K M : nat) (V : matrix) (sampMat : list vec) (NumSamples burnIn : nat) :
  K ≠ 0 → length V = K * M →
  burnIn ≤ NumSamples → NumSamples ≤ length sampMat →
  (∀ i s, burnIn ≤ i < NumSamples → sampMat !! i = Some s →
          Forall (λ row, length row = length s) V) →
  ∃ probs, aggregate K M V sampMat NumSamples burnIn = Ok probs ∧
    ∀ c p k s x, c < K → p < M → k < NumSamples - burnIn →
      sampMat !! (burnIn + k) = Some s →
      matvec V s !! (p * K + c) = Some x → (710 <= x)%R →
      tensor_entry probs c p k = Some NaN ∧
      ∀ c' x', c' < K → matvec V s !! (p * K + c') = Some x' →
        (Rabs x' <= 700)%R → tensor_entry probs c' p k = Some (Fin 0).
Proof.
  intros HK HV Hb Hn Hwf.
  destruct (aggregate_entry (F:=npfloat) K M V sampMat NumSamples burnIn)
    as (probs & Hagg & Hentry); [done..|].
  exists probs. split; [done|].
  intros c p k s x Hc Hp Hk Hs Hx Hbig.
  assert (ar_sum ((λ c', np_exp (default 0%R (matvec V s !! (p * K + c'))))
                    <$> seq 0 K) = PInf) as Hsum.
  { apply f64_sum_inf.
    - apply Forall_fmap, Forall_forall. intros c' _. apply np_exp_nonneg.
    - apply list_elem_of_fmap. exists c. split; [|apply elem_of_seq; lia].
      rewrite Hx. simpl. symmetry. by apply np_exp_overflow. }
  split.
  - rewrite (Hentry c p k s) by done. simpl. rewrite Hsum, Hx. simpl.
    by rewrite np_exp_overflow.
  - intros c' x' Hc' Hx' Hsmall.
    rewrite (Hentry c' p k s) by done. simpl. rewrite Hsum, Hx'. simpl.
    destruct (np_exp_normal x' Hsmall) as (e & -> & _). done.
Qed.

Lemma softmax_overflow_witness :
  ∃ probs,
    aggregate 3 1 (block_design 0%R 3 1 [[1%R]]) [[1000; 0; 0]%R] 1 0 = Ok probs ∧
    tensor_entry probs 0 0 0 = Some NaN ∧
    tensor_entry probs 1 0 0 = Some (Fin 0).
Proof.
  destruct (softmax_overflow 3 1 (block_design 0%R 3 1 [[1%R]])
              [[1000; 0; 0]%R] 1 0) as (probs & Hagg & Hentry);
    [lia | reflexivity | lia | simpl; lia | |].
  - intros [|i] s Hi; [|lia]. intros [= <-]. repeat constructor.
  - exists probs. split; [exact Hagg|].
    destruct (Hentry 0 0 0 [1000; 0; 0]%R 1000%R) as [Hnan Hzero];
      [lia | lia | lia | reflexivity | | lra |].
    + change (block_design 0%R 3 1 [[1%R]]) with chain_V.
      by rewrite chain_matvec.
    + split; [exact Hnan|].
      apply (Hzero 1 0%R); [lia| |rewrite Rabs_R0; lra].
      change (block_design 0%R 3 1 [[1%R]]) with chain_V.
      by rewrite chain_matvec.
Defined.

(** ** The burn-in prefix *)

(** X24.  The tensor only depends on the retained samples: the states of
    the burn-in prefix are never read (they need not even have the right
    length), and aggregating with a burn-in gives the tensor of the
    retained states aggregated alone. *)
Theorem aggregate_ignores_burn_in {F : Type} `{Arith F}
    (K M : nat) (V : matrix) (pre samples : list vec) (n : nat) :
  K ≠ 0 → length V = K * M → n ≤ length samples →
  (∀ i s, i < n → samples !! i = Some s →
          Forall (λ row, length row = length s) V) →
  aggregate K M V (pre ++ samples) (length pre + n) (length pre) =
    aggregate K M V samples n 0.
Proof.
  intros HK HV Hn Hwf.
  rewrite (aggregate_closed_form K M V HK HV (pre ++ samples) (length pre)
             (length pre + n)).
  - rewrite (aggregate_closed_form K M V HK HV samples 0 n);
      [|lia|done|intros i s Hi; apply Hwf; lia].
    rewrite drop_app_length, drop_0.
    by replace (length pre + n - length pre) with (n - 0) by lia.
  - lia.
  - rewrite length_app. lia.
  - intros i s Hi. rewrite lookup_app_r by lia. apply Hwf. lia.
Qed.

Lemma aggregate_ignores_burn_in_witness :
  aggregate 3 1 (block_design 0%R 3 1 [[1%R]])
      ([[7%R]] ++ [[0; 0; 0]%R]) (length [[7%R]] + 1) (length [[7%R]]) =
    aggregate 3 1 (block_design 0%R 3 1 [[1%R]]) [[0; 0; 0]%R] 1 0.
Proof.
  apply (aggregate_ignores_burn_in 3 1 (block_design 0%R 3 1 [[1%R]])
           [[7%R]] [[0; 0; 0]%R] 1); [lia | reflexivity | simpl; lia |].
  intros [|i] s Hi; [|lia]. intros [= <-]. repeat constructor.
Defined.
